(** * pylgrim: Elementary Shortest Path Problem with Resource Constraints

    A shallow embedding of [pylgrim/ESPPRC.py] (preprocessing, the general
    label setting algorithm GLSA, the general state space augmenting
    algorithm GSSA and the dominance test) together with the properties
    that its specification states about it.

    Conventions of the embedding.
    - Nodes are natural numbers; costs and resource amounts, floats in the
      code, are integers ([Z]); a numpy vector is a [list Z].
    - A Python [dict] is a [gmap]; the work-set [L] (a Python [set]) is a
      duplicate-free list, and the order in which Python iterates over it
      is the parameter [set_iter].
    - Python exceptions are explicit: a computation returns [Ok], raises
      one of the exceptions of [exn], or runs out of the fuel that bounds
      the [while] loops.
    - The calls of [logging] are left out: they change no state, and their
      arguments read only entries that the parallel lists of paths and
      labels hold. *)

From Stdlib Require Import ZArith List Lia Bool.
From stdpp Require Import gmap list fin_maps.

Local Open Scope Z_scope.

(** ** Exceptions and results *)

Inductive exn : Type :=
| KeyError            (* dict[k] on an absent key, set.remove of an absent element *)
| IndexError          (* list[i] out of range *)
| ValueError          (* numpy shape mismatch, max() of an empty sequence, Dijkstra's contradictory paths *)
| AttributeError      (* a method the object does not have *)
| UnboundLocalError   (* a local name read before any assignment *)
| SystemExit          (* quit() *)
| NodeNotFound.       (* networkx: the source node is not in the graph *)

Inductive result (A : Type) : Type :=
| Ok (a : A)
| Raise (e : exn)
| OutOfFuel.

Arguments Ok {A} a.
Arguments Raise {A} e.
Arguments OutOfFuel {A}.

#[global] Instance result_ret : MRet result := @Ok.
#[global] Instance result_bind : MBind result := λ A B f m,
  match m with
  | Ok a => f a
  | Raise e => Raise e
  | OutOfFuel => OutOfFuel
  end.

(** [o] when it holds a value, the exception [e] otherwise. *)
Definition require {A : Type} (e : exn) (o : option A) : result A :=
  match o with
  | Some a => Ok a
  | None => Raise e
  end.

(** A [for] loop whose body may raise. *)
Fixpoint foldM {A B : Type} (f : A → B → result A) (a : A) (xs : list B) : result A :=
  match xs with
  | [] => Ok a
  | x :: xs' => a' ← f a x; foldM f a' xs'
  end.

(** ** Graphs (networkx.DiGraph) *)

Definition node : Type := nat.

Record edge_data : Type := mk_edge { weight : Z; res_cost : list Z }.

(** The graph attribute [n_res], the nodes in insertion order and the
    edges in insertion order. *)
Record DiGraph : Type := mk_graph {
  n_res : nat;
  nodes : list node;
  adj : list (node * node * edge_data)
}.

Definition empty_graph (n : nat) : DiGraph := mk_graph n [] [].

Definition is_edge (u v : node) (x : node * node * edge_data) : bool :=
  bool_decide (x.1.1 = u) && bool_decide (x.1.2 = v).

Definition get_edge_data (G : DiGraph) (u v : node) : option edge_data :=
  snd <$> find (is_edge u v) (adj G).

Definition has_edge (G : DiGraph) (u v : node) : bool :=
  bool_decide (is_Some (get_edge_data G u v)).

Definition add_node (n : node) (ns : list node) : list node :=
  if bool_decide (n ∈ ns) then ns else ns ++ [n].

(** [G.add_edge(u, v, weight=.., res_cost=..)]: both end points become
    nodes; the attributes of an edge that exists already are updated. *)
Definition add_edge (u v : node) (e : edge_data) (G : DiGraph) : DiGraph :=
  mk_graph (n_res G) (add_node v (add_node u (nodes G)))
    (if has_edge G u v
     then map (λ x, if is_edge u v x then (u, v, e) else x) (adj G)
     else adj G ++ [(u, v, e)]).

(** [G.succ[u].items()] *)
Definition succ (G : DiGraph) (u : node) : result (list (node * edge_data)) :=
  if bool_decide (u ∈ nodes G)
  then Ok (omap (λ x, if bool_decide (x.1.1 = u) then Some (x.1.2, x.2) else None) (adj G))
  else Raise KeyError.

(** [G.reverse(copy=True)] *)
Definition reverse_graph (G : DiGraph) : DiGraph :=
  mk_graph (n_res G) (nodes G) (map (λ x, (x.1.2, x.1.1, x.2)) (adj G)).

(** ** Labels and dominance *)

(** A label is the tuple [(cost, resources)]. *)
Definition label : Type := Z * list Z.
Definition path : Type := list node.
(** An element [(node, index)] of the work-set [L]. *)
Definition pending : Type := node * nat.

(** [all(a == b)] and [any(a < b)] on two numpy vectors of one shape. *)
Definition np_all_eq (a b : list Z) : bool :=
  forallb (λ p, p.1 =? p.2) (zip a b).
Definition np_any_lt (a b : list Z) : bool :=
  existsb (λ p, p.1 <? p.2) (zip a b).

(** [_is_dominated(a, b)]: is the label [a] dominated by the label [b]? *)
Definition _is_dominated (a b : label) : bool :=
  if (a.1 =? b.1) && np_all_eq a.2 b.2 then false
  else
    let label_dominated := true in
    let label_dominated := if a.1 <? b.1 then false else label_dominated in
    let label_dominated := if np_any_lt a.2 b.2 then false else label_dominated in
    label_dominated.

(** ** Operations on the work-set *)

Definition set_add (x : pending) (s : list pending) : list pending :=
  if bool_decide (x ∈ s) then s else s ++ [x].

Definition set_discard (x : pending) (s : list pending) : list pending :=
  filter (λ y, y ≠ x) s.

(** [s.remove(x)] raises [KeyError] when [x] is not a member. *)
Definition set_remove (x : pending) (s : list pending) : result (list pending) :=
  if bool_decide (x ∈ s) then Ok (set_discard x s) else Raise KeyError.

(** [s.update(t)] *)
Definition set_update (s t : list pending) : list pending :=
  fold_left (λ acc x, set_add x acc) t s.

(** [S.index(v)], for [v] in [S]. *)
Fixpoint index_of (v : node) (SS : list node) : nat :=
  match SS with
  | [] => 0%nat
  | n :: SS' => if bool_decide (n = v) then 0%nat else S (index_of v SS')
  end.

(** ** The general label setting algorithm (GLSA) *)

(** The working state of one GLSA invocation: the paths and the labels of
    every node (parallel lists) and the work-set [L]. *)
Record GLSA_state : Type := mk_state {
  paths : gmap node (list path);
  labels : gmap node (list label);
  L : list pending
}.

Section Search.

(** The order in which Python iterates over the set [L]; it is
    implementation defined. *)
Variable set_iter : list pending → list pending.

Variable G : DiGraph.
Variables source target : node.
Variable max_res : list Z.
(** [res_min[res][u][v]]: the table of least resource consumptions. *)
Variable res_min : list (gmap node (gmap node Z)).

Section GLSA.

(** The list [S] of the nodes that own a node resource. *)
Variable SS : list node.

Definition GLSA_init : GLSA_state :=
  mk_state {[ source := [[source]] ]}
           {[ source := [(0, replicate (n_res G + length SS) 0)] ]}
           [(source, 0%nat)].

(** *** Selection of the label to extend *)

(** [labels[label[0]][label[1]][1][res]] *)
Definition res_loc (lbls : gmap node (list label)) (lab : pending) (res : nat) : result Z :=
  ls ← require KeyError (lbls !! lab.1);
  x ← require IndexError (ls !! lab.2);
  require IndexError (x.2 !! res).

(** The inner [for label in LML_for_prev_res] loop; [res_LML] is [None]
    while it still is [inf]. *)
Fixpoint LML_pass (lbls : gmap node (list label)) (res : nat) (prev : list pending)
    (res_LML : option Z) (LML_for_this_res : list pending) : result (list pending) :=
  match prev with
  | [] => Ok LML_for_this_res
  | lab :: prev' =>
      r ← res_loc lbls lab res;
      if match res_LML with None => true | Some m => r <=? m end
      then LML_pass lbls res prev' (Some r) (LML_for_this_res ++ [lab])
      else LML_pass lbls res prev' res_LML LML_for_this_res
  end.

(** The outer [for res in range(0, n_res+len(S))] loop; it carries the
    local [u_label], unbound ([None]) before the first pass. *)
Fixpoint LML_loop (lbls : gmap node (list label)) (rs : list nat) (LML_for_prev_res : list pending)
    (u_label : option pending) : result (option pending) :=
  match rs with
  | [] => Ok u_label
  | res :: rs' =>
      LML_for_this_res ← LML_pass lbls res LML_for_prev_res None [];
      match LML_for_this_res with
      | [] => Raise IndexError
      | [u] => Ok (Some u)
      | u :: _ => LML_loop lbls rs' LML_for_this_res (Some u)
      end
  end.

Definition select_label (st : GLSA_state) : result pending :=
  o ← LML_loop (labels st) (seq 0 (n_res G + length SS)) (set_iter (L st)) None;
  require UnboundLocalError o.

(** *** Extension of a label along an edge *)

(** [e_loc[0:n_res] = res_cost]: numpy broadcasts a vector of one entry and
    refuses any other vector of the wrong length. *)
Definition set_slice (rc : list Z) : result (list Z) :=
  if bool_decide (length rc = n_res G) then Ok rc
  else if bool_decide (length rc = 1%nat) then Ok (replicate (n_res G) (hd 0 rc))
  else Raise ValueError.

Definition e_loc (v : node) (e : edge_data) : result (list Z) :=
  phys ← set_slice (res_cost e);
  let zeros := phys ++ replicate (length SS) 0 in
  Ok (if bool_decide (v ∈ SS) then <[(n_res G + index_of v SS)%nat := 1]> zeros else zeros).

(** The "check edge resources" loop, with its [break]. *)
Fixpoint check_edge_resources (v : node) (r : list Z) (rs : list nat) : result bool :=
  match rs with
  | [] => Ok true
  | res :: rs' =>
      x ← require IndexError (r !! res);
      tbl ← require IndexError (res_min !! res);
      row ← require KeyError (tbl !! v);
      m ← require IndexError (max_res !! res);
      if x + default 0 (row !! target) >? m then Ok false
      else check_edge_resources v r rs'
  end.

(** The "check node resources" loop, with its [break]. *)
Fixpoint check_node_resources (r : list Z) (rs : list nat) : result bool :=
  match rs with
  | [] => Ok true
  | res :: rs' =>
      x ← require IndexError (r !! (n_res G + res)%nat);
      if x >? 1 then Ok false else check_node_resources r rs'
  end.

(** The body of the strong dominance loops for one node [n] of [S] and one
    resource [res]. *)
Definition strong_dominance_step (n : node) (r : list Z) (res : nat) : result (list Z) :=
  x ← require IndexError (r !! res);
  tbl ← require IndexError (res_min !! res);
  row ← require KeyError (tbl !! n);
  m ← require IndexError (max_res !! res);
  if x + default 0 (row !! n) >? m then
    y ← require IndexError (r !! (n_res G + index_of n SS)%nat);
    if y =? 0 then Ok (<[(n_res G + index_of n SS)%nat := 1]> r) else Ok r
  else Ok r.

(** [for n in S: for res in range(0, n_res): ...] *)
Definition strong_dominance (r : list Z) : result (list Z) :=
  foldM (λ r n, foldM (strong_dominance_step n) r (seq 0 (n_res G))) r SS.

(** The renumbering loop [for i in range(i_label+1, len(labels[v])+1)]. *)
Fixpoint rename_pending (v : node) (js : list nat) (Lc L_rename : list pending)
    : list pending * list pending :=
  match js with
  | [] => (Lc, L_rename)
  | i :: js' =>
      if bool_decide ((v, i) ∈ Lc)
      then rename_pending v js' (set_discard (v, i) Lc) (set_add (v, (i - 1)%nat) L_rename)
      else rename_pending v js' Lc L_rename
  end.

(** The "remove dominated labels" loop. [i_label] is the current index,
    [labs] and [pths] are the labels and paths of [v] from that index on;
    the result holds the labels and paths that are kept from there. *)
Fixpoint remove_dominated (v : node) (v_label : label) (i_label : nat)
    (labs : list label) (pths : list path) (Lc : list pending)
    : result (list label * list path * list pending) :=
  match labs with
  | [] => Ok ([], pths, Lc)
  | lab :: labs' =>
      if _is_dominated lab v_label then
        match pths with
        | [] => Raise IndexError
        | _ :: pths' =>
            let L1 := if bool_decide ((v, i_label) ∈ Lc) then set_discard (v, i_label) Lc else Lc in
            let '(L2, L_rename) := rename_pending v (seq (i_label + 1) (length labs')) L1 [] in
            remove_dominated v v_label i_label labs' pths' (set_update L2 L_rename)
        end
      else
        '(ls, ps, L') ← remove_dominated v v_label (i_label + 1) labs' (tail pths) Lc;
        Ok (lab :: ls, take 1 pths ++ ps, L')
  end.

(** The body of [for v, e in G.succ[u].items()] for the label [l] of [u]. *)
Definition extend_label (u : node) (l : nat) (st : GLSA_state) (ve : node * edge_data)
    : result GLSA_state :=
  let '(v, e) := ve in
  if bool_decide (v = source) then Raise SystemExit
  else
    el ← e_loc v e;
    lu ← require KeyError (labels st !! u);
    parent ← require IndexError (lu !! l);
    let v_label : label := (parent.1 + weight e, zip_with Z.add parent.2 el) in
    ok_edge ← check_edge_resources v v_label.2 (seq 0 (n_res G));
    ok_node ← check_node_resources v_label.2 (seq 0 (length SS));
    if ok_edge && ok_node then
      let at_v := default [] (labels st !! v) in
      if existsb (_is_dominated v_label) at_v then Ok st
      else
        pu ← require KeyError (paths st !! u);
        parent_path ← require IndexError (pu !! l);
        let v_path := parent_path ++ [v] in
        r ← strong_dominance v_label.2;
        let v_label : label := (v_label.1, r) in
        pv ← match labels st !! v with
             | None => Ok []
             | Some _ => require KeyError (paths st !! v)
             end;
        '(ls, ps, L') ← remove_dominated v v_label 0 at_v pv (L st);
        Ok (mk_state (<[v := ps ++ [v_path]]> (paths st))
                     (<[v := ls ++ [v_label]]> (labels st))
                     (set_add (v, length ls) L'))
    else Ok st.

(** One pass of the body of [while L]. *)
Definition GLSA_iter (st : GLSA_state) : result GLSA_state :=
  u_label ← select_label st;
  L' ← set_remove u_label (L st);
  es ← succ G u_label.1;
  foldM (extend_label u_label.1 u_label.2) (mk_state (paths st) (labels st) L') es.

Fixpoint GLSA_loop (fuel : nat) (st : GLSA_state) : result GLSA_state :=
  match L st with
  | [] => Ok st
  | _ =>
      match fuel with
      | O => OutOfFuel
      | S fuel' => st' ← GLSA_iter st; GLSA_loop fuel' st'
      end
  end.

(** The final scan of the labels of [target]; [best] is unbound ([None])
    and [least_cost] is [inf] until a label is taken. *)
Fixpoint cheapest (pt : option (list path)) (p : nat) (ls : list label)
    (best : option (path * label)) : result (option (path * label)) :=
  match ls with
  | [] => Ok best
  | lab :: ls' =>
      if match best with None => true | Some b => lab.1 <? b.2.1 end
      then
        pl ← require KeyError pt;
        best_path ← require IndexError (pl !! p);
        cheapest pt (S p) ls' (Some (best_path, lab))
      else cheapest pt (S p) ls' best
  end.

Definition select_cheapest (st : GLSA_state) : result (path * label) :=
  ls ← require KeyError (labels st !! target);
  best ← cheapest (paths st !! target) 0 ls None;
  require UnboundLocalError best.

Definition GLSA (fuel : nat) : result (path * label) :=
  st ← GLSA_loop fuel GLSA_init;
  select_cheapest st.

(** *** The states of an invocation

    The states that an invocation goes through: the initial state, a
    state after the selected entry has left the work-set, a state after
    one more edge has been treated. The relation leaves the choice of the
    entry and of the edge open, so it holds of every state of every run
    (see [GLSA_loop_reach]). *)
Inductive GLSA_reach : GLSA_state → Prop :=
| reach_init : GLSA_reach GLSA_init
| reach_select st u_label L' :
    GLSA_reach st →
    set_remove u_label (L st) = Ok L' →
    GLSA_reach (mk_state (paths st) (labels st) L')
| reach_extend st u l ve st' :
    GLSA_reach st →
    extend_label u l st ve = Ok st' →
    GLSA_reach st'.

(** The physical resources of the vector [r] respect the budgets. *)
Definition within_budget (r : list Z) : Prop :=
  ∀ res, (res < n_res G)%nat →
    ∃ x m, r !! res = Some x ∧ max_res !! res = Some m ∧ x ≤ m.

(** No label of the list dominates a label of the list. *)
Definition non_dominated (ls : list label) : Prop :=
  ∀ a b, a ∈ ls → b ∈ ls → _is_dominated a b = false.

End GLSA.

(** ** The general state space augmenting algorithm (GSSA) *)

(** Modelled from the spec: [path_tools.count_elems], which is not part of
    the sources at hand. It counts the node multiplicities of a path; the
    keys of the dictionary are the nodes of the path in the order of
    their first occurrence. *)
Definition count_elems (p : path) : list (node * nat) :=
  (λ n, (n, count_occ Nat.eq_dec p n)) <$> reverse (remove_dups (reverse p)).

(** [max(values)]; it raises [ValueError] on an empty sequence. *)
Definition py_max (xs : list nat) : result nat :=
  match xs with
  | [] => Raise ValueError
  | x :: xs' => Ok (fold_left (λ m y, if (m <? y)%nat then y else m) xs' x)
  end.

(** [max(d, key=d.get)]: the first key whose value is the greatest. *)
Definition py_max_key (d : list (node * nat)) : result node :=
  match d with
  | [] => Raise ValueError
  | x :: d' => Ok (fold_left (λ m y, if (m.2 <? y.2)%nat then y else m) d' x).1
  end.

(** [fuel] bounds the passes of [while not DLA_done], [gfuel] the passes of
    the loop of every GLSA invocation. *)
Fixpoint GSSA_loop (fuel gfuel : nat) (SS : list node) : result (path * label) :=
  match fuel with
  | O => OutOfFuel
  | S fuel' =>
      '(path, label) ← GLSA SS gfuel;
      let path_elems := count_elems path in
      path_max_mult ← py_max path_elems.*2;
      if (path_max_mult =? 1)%nat then Ok (path, label)
      else
        node_max_mult ← py_max_key path_elems;
        GSSA_loop fuel' gfuel (SS ++ [node_max_mult])
  end.

Definition GSSA (fuel gfuel : nat) : result (path * label) :=
  GSSA_loop fuel gfuel [].

End Search.

(** Every entry of the table of least resource consumptions is
    non-negative. *)
Definition bounds_nonneg (res_min : list (gmap node (gmap node Z))) : Prop :=
  Forall (map_Forall (λ _ row, map_Forall (λ (_ : node) x, 0 ≤ x) row)) res_min.

(** The least consumption from a node to itself, where the table has it,
    is zero. *)
Definition self_zero (res_min : list (gmap node (gmap node Z))) : Prop :=
  Forall (map_Forall (λ (n : node) (row : gmap node Z), default 0 (row !! n) = 0)) res_min.

(** The table has a row for the node [v] in each of its first [n]
    resources. *)
Definition has_rows (res_min : list (gmap node (gmap node Z))) (n : nat) (v : node) : Prop :=
  ∀ res, (res < n)%nat → ∃ tbl, res_min !! res = Some tbl ∧ is_Some (tbl !! v).

(** Every edge of the graph has non-negative resource costs. *)
Definition edges_nonneg (G : DiGraph) : Prop :=
  Forall (λ x : node * node * edge_data, Forall (λ c, 0 ≤ c) (res_cost x.2)) (adj G).

(** The strict lexicographic order on resource vectors. *)
Fixpoint lex_lt (a b : list Z) : bool :=
  match a, b with
  | x :: a', y :: b' => (x <? y) || ((x =? y) && lex_lt a' b')
  | _, _ => false
  end.

(** ** Preprocessing *)

(** *** networkx's Dijkstra

    A model of [networkx.single_source_dijkstra_path_length(G, source,
    cutoff, weight)]: the dictionary of the distances of the nodes that are
    reached within [cutoff]. [wt] is the weight function. *)

Section Dijkstra.

Variable wt : edge_data → result Z.
Variable G : DiGraph.
Variable cutoff : option Z.

Definition heap_entry : Type := Z * nat * node.

Definition heap_lt (x y : heap_entry) : bool :=
  (x.1.1 <? y.1.1) || ((x.1.1 =? y.1.1) && (x.1.2 <? y.1.2)%nat).

(** The fringe is kept sorted, its least entry first. *)
Fixpoint heappush (x : heap_entry) (h : list heap_entry) : list heap_entry :=
  match h with
  | [] => [x]
  | y :: h' => if heap_lt x y then x :: h else y :: heappush x h'
  end.

(** The treatment of one edge [v -> u] once [v] has got its distance [d]. *)
Definition relax (dist : gmap node Z) (d : Z)
    (s : gmap node Z * list heap_entry * nat) (ue : node * edge_data)
    : result (gmap node Z * list heap_entry * nat) :=
  let '(seen, fringe, c) := s in
  let '(u, e) := ue in
  cost ← wt e;
  let vu_dist := d + cost in
  if match cutoff with Some k => vu_dist >? k | None => false end then Ok s
  else
    match dist !! u with
    | Some u_dist => if vu_dist <? u_dist then Raise ValueError else Ok s
    | None =>
        if match seen !! u with Some su => vu_dist <? su | None => true end
        then Ok (<[u := vu_dist]> seen, heappush (vu_dist, c, u) fringe, S c)
        else Ok s
    end.

Fixpoint dijkstra_loop (fuel : nat) (dist seen : gmap node Z)
    (fringe : list heap_entry) (c : nat) : result (gmap node Z) :=
  match fringe with
  | [] => Ok dist
  | (d, _, v) :: fringe' =>
      match fuel with
      | O => OutOfFuel
      | S fuel' =>
          if bool_decide (is_Some (dist !! v)) then dijkstra_loop fuel' dist seen fringe' c
          else
            let dist' := <[v := d]> dist in
            es ← succ G v;
            '(seen', fringe'', c') ← foldM (relax dist' d) (seen, fringe', c) es;
            dijkstra_loop fuel' dist' seen' fringe'' c'
      end
  end.

(** Every edge is relaxed at most once, so the fringe receives at most
    [1 + length (adj G)] entries in all. *)
Definition single_source_dijkstra_path_length (src : node) : result (gmap node Z) :=
  if bool_decide (src ∈ nodes G)
  then dijkstra_loop (2 + length (adj G)) ∅ {[ src := 0 ]} [(0, 0%nat, src)] 1
  else Raise NodeNotFound.

(** [dict(networkx.all_pairs_dijkstra_path_length(G, weight))], where
    [cutoff] is [None]. *)
Definition all_pairs_dijkstra_path_length : result (gmap node (gmap node Z)) :=
  foldM (λ tbl n, d ← single_source_dijkstra_path_length n; Ok (<[n := d]> tbl)) ∅ (nodes G).

End Dijkstra.

(** [_res_cost_i(u, v, e)] with the global [resource_treated] equal to
    [res]. *)
Definition _res_cost_i (res : nat) (e : edge_data) : result Z :=
  require IndexError (res_cost e !! res).

Section Preprocess.

Variable G : DiGraph.
Variables source target : node.
Variable max_res : list Z.

(** [reachable_nodes.intersection(lengths)] *)
Definition intersection (reachable_nodes : list node) (lengths : gmap node Z) : list node :=
  filter (λ n, is_Some (lengths !! n)) reachable_nodes.

(** The loop that deletes the unreachable nodes. [reachable_nodes] is a
    Python set, which has no method [append]. *)
Fixpoint delete_unreachable (rs : list nat) (reachable_nodes : list node) : result (list node) :=
  match rs with
  | [] => Ok reachable_nodes
  | res :: rs' =>
      k ← require IndexError (max_res !! res);
      lengths ← single_source_dijkstra_path_length (_res_cost_i res) G (Some k) source;
      let reachable_nodes := intersection reachable_nodes lengths in
      if bool_decide (source ∉ reachable_nodes) then Raise AttributeError
      else
        k ← require IndexError (max_res !! res);
        lengths ← single_source_dijkstra_path_length (_res_cost_i res) (reverse_graph G) (Some k) target;
        let reachable_nodes := intersection reachable_nodes lengths in
        if bool_decide (target ∉ reachable_nodes) then Raise AttributeError
        else delete_unreachable rs' reachable_nodes
  end.

(** The nodes that survive: [reachable_nodes] after the first loop. *)
Definition surviving_nodes : result (list node) :=
  delete_unreachable (seq 0 (n_res G)) (remove_dups (nodes G)).

(** The body of the two nested loops that set up the reduced graph. *)
Definition copy_edge (H : DiGraph) (p : node * node) : DiGraph :=
  if has_edge G p.1 p.2 && negb (has_edge H p.1 p.2) then
    match get_edge_data G p.1 p.2 with
    | Some e => add_edge p.1 p.2 (mk_edge (weight e) (res_cost e)) H
    | None => H
    end
  else H.

(** What the nested loops have set up once they have treated the pairs
    of nodes [ps]: the edges of [G] between these pairs, and the nodes that
    these edges touch. *)
Definition copied (H : DiGraph) (ps : list (node * node)) : Prop :=
  (∀ u v e, get_edge_data H u v = Some e ↔ (u, v) ∈ ps ∧ get_edge_data G u v = Some e) ∧
  (∀ n, n ∈ nodes H ↔
        ∃ u v, (u, v) ∈ ps ∧ is_Some (get_edge_data G u v) ∧ (n = u ∨ n = v)).

Definition reduced_graph (reachable_nodes : list node) : DiGraph :=
  fold_left copy_edge (list_prod reachable_nodes reachable_nodes) (empty_graph (n_res G)).

Definition least_resource_pairs (H : DiGraph) : result (list (gmap node (gmap node Z))) :=
  foldM (λ res_min res,
           tbl ← all_pairs_dijkstra_path_length (_res_cost_i res) H None;
           Ok (res_min ++ [tbl]))
        [] (seq 0 (n_res G)).

Definition preprocess_ESPPRC : result (DiGraph * list (gmap node (gmap node Z))) :=
  reachable_nodes ← surviving_nodes;
  let H := reduced_graph reachable_nodes in
  res_min ← least_resource_pairs H;
  Ok (H, res_min).

End Preprocess.

(** ** What the paths, the labels and the work-set record *)

Section Records.

Variable G : DiGraph.
Variable source : node.
Variable SS : list node.

(** [walk p c r]: the path [p] starts at [source], follows edges of [G]
    that never lead back to [source], and costs [c] and consumes the
    resources [r] along these edges. *)
Inductive walk : path → Z → list Z → Prop :=
| walk_source : walk [source] 0 (replicate (n_res G) 0)
| walk_step p c r u v e phys :
    walk p c r →
    last p = Some u → u ∈ nodes G → (u, v, e) ∈ adj G → v ≠ source →
    set_slice G (res_cost e) = Ok phys →
    walk (p ++ [v]) (c + weight e) (zip_with Z.add r phys).

(** The label [lab] records the path [p]: its cost and its physical
    resources are those of the path, and the node resource of a node of
    [S] is 0 or 1 and at least the number of visits that the path pays to
    the node after its start. *)
Definition tracks (lab : label) (p : path) : Prop :=
  length lab.2 = (n_res G + length SS)%nat ∧
  walk p lab.1 (take (n_res G) lab.2) ∧
  ∀ n, n ∈ SS →
    ∃ x, lab.2 !! (n_res G + index_of n SS)%nat = Some x ∧
         Z.of_nat (count_occ Nat.eq_dec (tail p) n) ≤ x ≤ 1.

(** The lists of labels and of paths of every node are parallel: the
    label at an index records the path at that index, which ends at the
    node. *)
Definition parallel (st : GLSA_state) : Prop :=
  ∀ v ls ps, labels st !! v = Some ls → paths st !! v = Some ps →
    Forall2 (λ lab p, last p = Some v ∧ tracks lab p) ls ps.

(** Every entry of the work-set is the index of a label. *)
Definition valid_pending (st : GLSA_state) : Prop :=
  ∀ v i, (v, i) ∈ L st → ∃ ls, labels st !! v = Some ls ∧ (i < length ls)%nat.

End Records.

(** The index that the label at index [j] of [labs] has once the labels
    that [v_label] dominates are removed; [None] when that label is
    removed itself or when there is no such label. *)
Fixpoint kept_index (v_label : label) (labs : list label) (j : nat) : option nat :=
  match labs, j with
  | [], _ => None
  | lab :: _, O => if _is_dominated lab v_label then None else Some 0%nat
  | lab :: labs', S j' =>
      if _is_dominated lab v_label then kept_index v_label labs' j'
      else S <$> kept_index v_label labs' j'
  end.

(** ** Instances *)

Definition nA : node := 0%nat.
Definition nB : node := 1%nat.
Definition nC : node := 2%nat.
Definition nD : node := 3%nat.
Definition nE : node := 4%nat.

(** An instance without a feasible path: one edge that costs one unit of
    the only resource, and a budget of zero. *)
Definition infeasible_graph : DiGraph :=
  add_edge nA nB (mk_edge 1 [1]) (empty_graph 1).

(** The least consumptions in [infeasible_graph]. *)
Definition infeasible_res_min : list (gmap node (gmap node Z)) :=
  [ {[ nA := {[ nA := 0; nB := 1 ]}; nB := {[ nB := 0 ]} ]} ].

(** Two ways from [nA] to [nD]: over [nB], for 5 + 1 units, and over [nC],
    for 3 + 1 units. *)
Definition fork_graph : DiGraph :=
  add_edge nC nD (mk_edge 1 [1])
    (add_edge nB nD (mk_edge 1 [1])
       (add_edge nA nC (mk_edge 1 [3])
          (add_edge nA nB (mk_edge 1 [5]) (empty_graph 1)))).

Definition fork_res_min : list (gmap node (gmap node Z)) :=
  [ {[ nA := {[ nA := 0; nB := 5; nC := 3; nD := 4 ]};
       nB := {[ nB := 0; nD := 1 ]};
       nC := {[ nC := 0; nD := 1 ]};
       nD := {[ nD := 0 ]} ]} ].

(** The state of GLSA on [fork_graph] after the label of the source has
    been extended. *)
Definition fork_state : GLSA_state :=
  mk_state {[ nA := [[nA]]; nB := [[nA; nB]]; nC := [[nA; nC]] ]}
           {[ nA := [(0, [0])]; nB := [(1, [5])]; nC := [(1, [3])] ]}
           [(nB, 0%nat); (nC, 0%nat)].

(** From [nB], reached for 3 units, [nD] costs nothing more and [nC] one
    more unit; the budget is 3. *)
Definition detour_graph : DiGraph :=
  add_edge nB nD (mk_edge 1 [0])
    (add_edge nB nC (mk_edge 1 [1])
       (add_edge nA nB (mk_edge 1 [3])
          (add_edge nC nD (mk_edge 1 [1])
             (add_edge nA nC (mk_edge 1 [1]) (empty_graph 1))))).

(** Its reduced graph: every node survives. *)
Definition detour_reduced : DiGraph :=
  reduced_graph detour_graph [nA; nC; nD; nB].

Definition detour_res_min : list (gmap node (gmap node Z)) :=
  [ {[ nA := {[ nA := 0; nB := 3; nC := 1; nD := 2 ]};
       nB := {[ nB := 0; nC := 1; nD := 0 ]};
       nC := {[ nC := 0; nD := 1 ]};
       nD := {[ nD := 0 ]} ]} ].

(** An edge from [nA] to [nE] and a chain from [nA] to [nE] over [nB],
    [nC] and [nD]; every edge costs one unit. *)
Definition chain_graph : DiGraph :=
  add_edge nD nE (mk_edge 1 [1])
    (add_edge nC nD (mk_edge 1 [1])
       (add_edge nB nC (mk_edge 1 [1])
          (add_edge nA nB (mk_edge 1 [1])
             (add_edge nA nE (mk_edge 1 [1]) (empty_graph 1))))).

(** A cycle of negative cost between [nB] and [nC] on the way from [nA]
    to [nD]. *)
Definition cycle_graph : DiGraph :=
  add_edge nC nB (mk_edge (-5) [1])
    (add_edge nB nD (mk_edge 1 [1])
       (add_edge nB nC (mk_edge (-5) [1])
          (add_edge nA nB (mk_edge 1 [1]) (empty_graph 1)))).

Definition cycle_reduced : DiGraph :=
  reduced_graph cycle_graph [nA; nB; nC; nD].

Definition cycle_res_min : list (gmap node (gmap node Z)) :=
  [ {[ nA := {[ nA := 0; nB := 1; nC := 2; nD := 2 ]};
       nB := {[ nB := 0; nC := 1; nD := 1 ]};
       nC := {[ nC := 0; nB := 1; nD := 2 ]};
       nD := {[ nD := 0 ]} ]} ].

(** The second scenario of the specification: the four nodes of its first
    scenario with the edge from [nB] back to the source [nA]. *)
Definition reentrant_graph : DiGraph :=
  add_edge nC nD (mk_edge 1 [1])
    (add_edge nB nC (mk_edge 1 [1])
       (add_edge nB nA (mk_edge (-10) [1])
          (add_edge nA nC (mk_edge 5 [1])
             (add_edge nA nB (mk_edge 1 [1]) (empty_graph 1))))).

Definition reentrant_reduced : DiGraph :=
  reduced_graph reentrant_graph [nA; nB; nC; nD].

Definition reentrant_res_min : list (gmap node (gmap node Z)) :=
  [ {[ nA := {[ nA := 0; nB := 1; nC := 1; nD := 2 ]};
       nB := {[ nA := 1; nB := 0; nC := 1; nD := 2 ]};
       nC := {[ nC := 0; nD := 1 ]};
       nD := {[ nD := 0 ]} ]} ].

(** The state of GLSA on [reentrant_reduced] after the label of the source
    has been extended. *)
Definition reentrant_state : GLSA_state :=
  mk_state {[ nA := [[nA]]; nB := [[nA; nB]]; nC := [[nA; nC]] ]}
           {[ nA := [(0, [0])]; nB := [(1, [1])]; nC := [(5, [1])] ]}
           [(nB, 0%nat); (nC, 0%nat)].

(** The reduced graph of [chain_graph] for the budget 2: [nA], [nE] and
    [nC] survive. *)
Definition chain_reduced : DiGraph :=
  reduced_graph chain_graph [nA; nE; nC].

Definition chain_res_min : list (gmap node (gmap node Z)) :=
  [ {[ nA := {[ nA := 0; nE := 1 ]}; nE := {[ nE := 0 ]} ]} ].

(** A graph without resources: one edge that has a weight only. *)
Definition unresourced_graph : DiGraph :=
  add_edge nA nB (mk_edge 1 []) (empty_graph 0).

(** * Properties *)

(** ** Results *)

Lemma bind_Ok {A B : Type} (m : result A) (f : A → result B) (b : B) :
  m ≫= f = Ok b → ∃ a, m = Ok a ∧ f a = Ok b.
Proof. destruct m as [a| |]; simpl; intros H; try discriminate. eauto. Qed.

Lemma require_Ok {A : Type} (e : exn) (o : option A) (a : A) :
  require e o = Ok a → o = Some a.
Proof. destruct o; simpl; intros H; congruence. Qed.

Ltac inv_ok :=
  repeat match goal with
  | H : _ ≫= _ = Ok _ |- _ =>
      let a := fresh "a" in
      let Ha := fresh "Ha" in
      apply bind_Ok in H; destruct H as (a & Ha & H)
  | H : require _ _ = Ok _ |- _ => apply require_Ok in H
  | H : Ok _ = Ok _ |- _ => injection H as H
  | H : Raise _ = Ok _ |- _ => discriminate H
  | H : OutOfFuel = Ok _ |- _ => discriminate H
  end.

Lemma bind_Ok_l {A B : Type} (a : A) (f : A → result B) : Ok a ≫= f = f a.
Proof. reflexivity. Qed.

Lemma foldM_cons {A B : Type} (f : A → B → result A) (a : A) (x : B) (xs : list B) :
  foldM f a (x :: xs) = f a x ≫= λ a', foldM f a' xs.
Proof. reflexivity. Qed.

Lemma foldM_app {A B : Type} (f : A → B → result A) (a : A) (xs ys : list B) :
  foldM f a (xs ++ ys) = foldM f a xs ≫= λ a', foldM f a' ys.
Proof.
  revert a. induction xs as [|x xs IH]; intros a; simpl; [done|].
  destruct (f a x) as [a'| |]; simpl; auto.
Qed.

(** An invariant of the body is an invariant of the loop. *)
Lemma foldM_invariant {A B : Type} (P : A → Prop) (f : A → B → result A) (xs : list B) :
  (∀ a x a', P a → f a x = Ok a' → P a') →
  ∀ a a', P a → foldM f a xs = Ok a' → P a'.
Proof.
  intros Hf. induction xs as [|x xs IH]; simpl; intros a a' Ha H.
  - congruence.
  - inv_ok. eauto.
Qed.

Lemma foldM_invariant_elem {A B : Type} (P : A → Prop) (f : A → B → result A)
    (xs : list B) :
  (∀ a x a', x ∈ xs → P a → f a x = Ok a' → P a') →
  ∀ a a', P a → foldM f a xs = Ok a' → P a'.
Proof.
  induction xs as [|x xs IH]; simpl; intros Hf a a' Ha H.
  - congruence.
  - inv_ok. eapply IH; [|by eapply (Hf a x); [left|..]|done].
    intros b y b' Hy. apply Hf. by right.
Qed.

(** ** Dominance *)

Lemma np_any_lt_false (a b : list Z) :
  np_any_lt a b = false ↔ Forall (λ p, p.2 ≤ p.1) (zip a b).
Proof.
  unfold np_any_lt. induction (zip a b) as [|p l IH]; simpl.
  - split; auto.
  - rewrite orb_false_iff, IH, Forall_cons, Z.ltb_ge. tauto.
Qed.

Lemma np_all_eq_true (a b : list Z) :
  np_all_eq a b = true ↔ Forall (λ p, p.1 = p.2) (zip a b).
Proof.
  unfold np_all_eq. induction (zip a b) as [|p l IH]; simpl.
  - split; auto.
  - rewrite andb_true_iff, IH, Forall_cons, Z.eqb_eq. tauto.
Qed.

Lemma np_all_eq_refl (a : list Z) : np_all_eq a a = true.
Proof. apply np_all_eq_true. induction a; simpl; constructor; auto. Qed.

Lemma np_all_eq_eq (a b : list Z) :
  length a = length b → np_all_eq a b = true → a = b.
Proof.
  rewrite np_all_eq_true. revert b.
  induction a as [|x a IH]; intros [|y b]; simpl; intros Hl H; try done.
  apply Forall_cons in H as [Hxy H]. simpl in Hxy. f_equal; auto.
Qed.

(** [a] is dominated by [b] when they differ and [b] is at most [a] in
    the cost and in every resource. *)
Lemma _is_dominated_true (a b : label) :
  _is_dominated a b = true ↔
    (a.1 =? b.1) && np_all_eq a.2 b.2 = false ∧ b.1 ≤ a.1 ∧
    Forall (λ p, p.2 ≤ p.1) (zip a.2 b.2).
Proof.
  unfold _is_dominated. rewrite <- np_any_lt_false. cbv zeta.
  destruct ((a.1 =? b.1) && np_all_eq a.2 b.2).
  { split; [discriminate|]. intros (? & _); discriminate. }
  destruct (Z.ltb_spec a.1 b.1).
  { destruct (np_any_lt a.2 b.2); (split; [discriminate|]); intros (_ & ? & ?);
      first [discriminate | lia]. }
  destruct (np_any_lt a.2 b.2).
  - split; [discriminate|]. intros (_ & _ & ?); discriminate.
  - split; [|done]. intros _. split_and!; [done|lia|done].
Qed.

Lemma zip_le_antisym (a b : list Z) :
  Forall (λ p, p.2 ≤ p.1) (zip a b) → Forall (λ p, p.2 ≤ p.1) (zip b a) →
  Forall (λ p, p.1 = p.2) (zip a b).
Proof.
  revert b. induction a as [|x a IH]; intros [|y b]; simpl; intros H1 H2; try constructor.
  - apply Forall_cons in H1 as [H1 _], H2 as [H2 _]. simpl in *. lia.
  - apply Forall_cons in H1 as [_ H1], H2 as [_ H2]. auto.
Qed.

Lemma zip_le_trans (a b c : list Z) :
  length a = length b →
  Forall (λ p, p.2 ≤ p.1) (zip a b) → Forall (λ p, p.2 ≤ p.1) (zip b c) →
  Forall (λ p, p.2 ≤ p.1) (zip a c).
Proof.
  revert b c. induction a as [|x a IH]; intros [|y b] [|z c]; simpl;
    intros Hl H1 H2; try done; try constructor.
  - apply Forall_cons in H1 as [H1 _], H2 as [H2 _]. simpl in *. lia.
  - apply Forall_cons in H1 as [_ H1], H2 as [_ H2].
    apply (IH b c); [congruence|done|done].
Qed.

Lemma zip_le_squeeze (a b c : list Z) :
  length a = length b → length b = length c →
  Forall (λ p, p.2 ≤ p.1) (zip a b) → Forall (λ p, p.2 ≤ p.1) (zip b c) →
  Forall (λ p, p.1 = p.2) (zip a c) →
  Forall (λ p, p.1 = p.2) (zip a b).
Proof.
  revert b c. induction a as [|x a IH]; intros [|y b] [|z c]; simpl;
    intros Hl1 Hl2 H1 H2 H3; try done; try constructor.
  - apply Forall_cons in H1 as [H1 _], H2 as [H2 _], H3 as [H3 _]. simpl in *. lia.
  - apply Forall_cons in H1 as [_ H1], H2 as [_ H2], H3 as [_ H3].
    apply (IH b c); [congruence|congruence|done|done|done].
Qed.

Lemma _is_dominated_irrefl (a : label) : _is_dominated a a = false.
Proof.
  unfold _is_dominated. by rewrite Z.eqb_refl, np_all_eq_refl.
Qed.

Lemma _is_dominated_asym (a b : label) :
  _is_dominated a b = true → _is_dominated b a = false.
Proof.
  intros Hab. apply not_true_is_false. intros Hba.
  apply _is_dominated_true in Hab as (Hne & Hc1 & Hr1).
  apply _is_dominated_true in Hba as (_ & Hc2 & Hr2).
  apply andb_false_iff in Hne as [Hne|Hne].
  - apply Z.eqb_neq in Hne. lia.
  - apply not_true_iff_false in Hne. apply Hne, np_all_eq_true.
    by apply zip_le_antisym.
Qed.

Lemma _is_dominated_trans (a b c : label) :
  length a.2 = length b.2 → length b.2 = length c.2 →
  _is_dominated a b = true → _is_dominated b c = true → _is_dominated a c = true.
Proof.
  intros Hl1 Hl2 Hab Hbc.
  apply _is_dominated_true in Hab as (Hne & Hc1 & Hr1).
  apply _is_dominated_true in Hbc as (_ & Hc2 & Hr2).
  apply _is_dominated_true. split_and!.
  - apply not_true_iff_false. intros [Hc Hr]%andb_true_iff.
    apply Z.eqb_eq in Hc. apply np_all_eq_true in Hr.
    apply not_true_iff_false in Hne. apply Hne, andb_true_iff. split.
    + apply Z.eqb_eq. lia.
    + apply np_all_eq_true. by eapply zip_le_squeeze.
  - lia.
  - by eapply zip_le_trans.
Qed.

Lemma foldM_noop {A B : Type} (f : A → B → result A) (xs : list B) (a a' : A) :
  (∀ x b, x ∈ xs → f a x = Ok b → b = a) →
  foldM f a xs = Ok a' → a' = a.
Proof.
  induction xs as [|x xs IH]; simpl; intros Hf H.
  - congruence.
  - inv_ok. apply Hf in Ha as ->; [|by left].
    apply IH; [|done]. intros y b Hy. apply Hf. by right.
Qed.

(** ** The label setting algorithm *)

Lemma bounds_nonneg_lookup res_min res tbl (v n : node) row :
  bounds_nonneg res_min →
  res_min !! res = Some tbl → tbl !! v = Some row →
  0 ≤ default 0 (row !! n).
Proof.
  intros Hb Ht Hr. unfold bounds_nonneg in Hb.
  rewrite Forall_lookup in Hb. specialize (Hb _ _ Ht _ _ Hr).
  destruct (row !! n) as [x|] eqn:Hx; simpl; [|lia].
  by apply (Hb _ _ Hx).
Qed.

Lemma self_zero_lookup res_min res tbl (n : node) row :
  self_zero res_min →
  res_min !! res = Some tbl → tbl !! n = Some row →
  default 0 (row !! n) = 0.
Proof.
  intros Hz Ht Hr. unfold self_zero in Hz.
  rewrite Forall_lookup in Hz. exact (Hz _ _ Ht _ _ Hr).
Qed.

Section GLSA_properties.

Variable set_iter : list pending → list pending.
Variable G : DiGraph.
Variables source target : node.
Variable max_res : list Z.
Variable res_min : list (gmap node (gmap node Z)).
Variable SS : list node.

Local Abbreviation check_edge := (check_edge_resources target max_res res_min).
Local Abbreviation sd_step := (strong_dominance_step G max_res res_min SS).
Local Abbreviation sd := (strong_dominance G max_res res_min SS).
Local Abbreviation extend := (extend_label G source target max_res res_min SS).
Local Abbreviation reach := (GLSA_reach G source target max_res res_min SS).
Local Abbreviation budget := (within_budget G max_res).
Local Abbreviation init := (GLSA_init G source SS).

(** What a passed feasibility test has checked. *)
Lemma check_edge_true (v : node) (r : list Z) (rs : list nat) :
  check_edge v r rs = Ok true →
  ∀ res, res ∈ rs →
    ∃ x tbl row m, r !! res = Some x ∧ res_min !! res = Some tbl ∧
      tbl !! v = Some row ∧ max_res !! res = Some m ∧
      x + default 0 (row !! target) ≤ m.
Proof.
  induction rs as [|res0 rs IH]; simpl; intros H res Hin.
  - by apply elem_of_nil in Hin.
  - inv_ok.
    destruct (Z.gtb_spec (a + default 0 (a1 !! target)) a2) as [Hgt|Hle]; [discriminate|].
    apply elem_of_cons in Hin as [->|Hin]; [|by apply IH].
    exists a, a0, a1, a2. by repeat split.
Qed.

Lemma check_edge_budget (v : node) (r : list Z) :
  bounds_nonneg res_min →
  check_edge v r (seq 0 (n_res G)) = Ok true → budget r.
Proof.
  intros Hb H res Hres.
  destruct (check_edge_true _ _ _ H res) as (x & tbl & row & m & Hx & Ht & Hr & Hm & Hle).
  { apply elem_of_seq. lia. }
  exists x, m. split_and!; [done..|].
  pose proof (bounds_nonneg_lookup _ _ _ _ target _ Hb Ht Hr). lia.
Qed.

(** The strong dominance step writes node resources only. *)
Lemma sd_step_frame (n : node) (r r' : list Z) (res : nat) :
  sd_step n r res = Ok r' →
  length r' = length r ∧ ∀ i, (i < n_res G)%nat → r' !! i = r !! i.
Proof.
  unfold strong_dominance_step. intros H. inv_ok.
  destruct (_ >? _); [|by inv_ok; subst].
  inv_ok. destruct (_ =? _); inv_ok; subst; [|done].
  split; [by rewrite length_insert|].
  intros i Hi. apply list_lookup_insert_ne. lia.
Qed.

Lemma sd_frame (r r' : list Z) :
  sd r = Ok r' →
  length r' = length r ∧ ∀ i, (i < n_res G)%nat → r' !! i = r !! i.
Proof.
  set (P := λ r0 : list Z,
         length r0 = length r ∧ ∀ i, (i < n_res G)%nat → r0 !! i = r !! i).
  unfold strong_dominance. intros H.
  refine (foldM_invariant P _ SS _ r r' _ H); [|done].
  intros a n a' Ha Hin.
  refine (foldM_invariant P _ _ _ a a' Ha Hin).
  intros b res b' [Hl Hb] Hstep. apply sd_step_frame in Hstep as [Hl' Hb'].
  split; [congruence|]. intros i Hi. rewrite Hb', Hb; auto.
Qed.

Lemma sd_budget (r r' : list Z) : budget r → sd r = Ok r' → budget r'.
Proof.
  intros Hr [_ Hf]%sd_frame res Hres.
  destruct (Hr res Hres) as (x & m & ? & ? & ?).
  exists x, m. rewrite Hf; auto.
Qed.

(** On a label that respects the budgets the strong dominance step does
    nothing: the bound it reads is the consumption from [n] to [n]. *)
Lemma sd_step_noop (n : node) (r r' : list Z) (res : nat) :
  self_zero res_min → budget r → (res < n_res G)%nat →
  sd_step n r res = Ok r' → r' = r.
Proof.
  intros Hz Hr Hres. unfold strong_dominance_step. intros H. inv_ok.
  rewrite (self_zero_lookup _ _ _ _ _ Hz Ha0 Ha1) in H.
  destruct (Hr res Hres) as (x & m & Hx & Hm & Hle).
  assert (a = x) as -> by congruence. assert (a2 = m) as -> by congruence.
  destruct (Z.gtb_spec (x + 0) m); [lia|]. by inv_ok.
Qed.

Lemma sd_noop (r r' : list Z) :
  self_zero res_min → budget r → sd r = Ok r' → r' = r.
Proof.
  intros Hz Hr. unfold strong_dominance. apply foldM_noop.
  intros n b _. apply foldM_noop.
  intros res c Hin%elem_of_seq. apply sd_step_noop; [done..|lia].
Qed.

(** The labels that the removal loop keeps were there before, and the new
    label dominates none of them. *)
Lemma remove_dominated_kept (v : node) (v_label : label) (labs : list label) :
  ∀ i pths Lc ls ps L',
    remove_dominated v v_label i labs pths Lc = Ok (ls, ps, L') →
    ∀ a, a ∈ ls → a ∈ labs ∧ _is_dominated a v_label = false.
Proof.
  induction labs as [|lab labs IH]; simpl; intros i pths Lc ls ps L' H a Ha.
  - inv_ok. simplify_eq. by apply elem_of_nil in Ha.
  - destruct (_is_dominated lab v_label) eqn:Hd.
    + destruct pths as [|p pths]; [discriminate|].
      destruct (rename_pending _ _ _ _) as [L2 L_rename].
      destruct (IH _ _ _ _ _ _ H a Ha) as [Hin Hnd].
      split; [by right|done].
    + inv_ok. destruct a0 as [[ls0 ps0] L0]. inv_ok. simplify_eq.
      apply elem_of_cons in Ha as [->|Ha]; [split; [by left|done]|].
      destruct (IH _ _ _ _ _ _ Ha0 a Ha) as [Hin Hnd].
      split; [by right|done].
Qed.

Lemma existsb_false {A : Type} (f : A → bool) (l : list A) :
  existsb f l = false → ∀ x, x ∈ l → f x = false.
Proof.
  induction l as [|y l IH]; simpl; intros H x Hx.
  - by apply elem_of_nil in Hx.
  - apply orb_false_iff in H as [Hy Hl].
    apply elem_of_cons in Hx as [->|Hx]; auto.
Qed.

(** The treatment of an edge either leaves the state as it is or stores
    one new label at the head [v] of the edge: a label that has passed the
    feasibility test and that no label of [v] dominates, after the labels
    of [v] that it dominates have been removed. *)
Lemma extend_label_inv (u : node) (l : nat) (st st' : GLSA_state) (v : node) (e : edge_data) :
  extend u l st (v, e) = Ok st' →
  st' = st ∨
  ∃ (c : label) r ls ps L' pv v_path lu parent el,
    labels st !! u = Some lu ∧ lu !! l = Some parent ∧ e_loc G SS v e = Ok el ∧
    c = (parent.1 + weight e, zip_with Z.add parent.2 el) ∧
    check_edge v c.2 (seq 0 (n_res G)) = Ok true ∧
    (∀ b, b ∈ default [] (labels st !! v) → _is_dominated c b = false) ∧
    sd c.2 = Ok r ∧
    remove_dominated v (c.1, r) 0 (default [] (labels st !! v)) pv (L st) = Ok (ls, ps, L') ∧
    st' = mk_state (<[v := ps ++ [v_path]]> (paths st))
                   (<[v := ls ++ [(c.1, r)]]> (labels st))
                   (set_add (v, length ls) L').
Proof.
  unfold extend_label. intros H.
  destruct (bool_decide (v = source)); [discriminate|].
  inv_ok. simpl in *.
  destruct a2 as [|]; simpl in H; [|inv_ok; by left].
  destruct a3 as [|]; simpl in H; [|inv_ok; by left].
  destruct (existsb _ _) eqn:Hex; [inv_ok; by left|].
  inv_ok. destruct a6 as [[ls ps] L']. inv_ok. right.
  match goal with
  | Hc : check_edge v ?r _ = Ok true,
    Hr : remove_dominated v (?c, _) _ _ _ _ = Ok _ |- _ => exists (c, r)
  end.
  do 9 eexists. simpl. split_and!; eauto using existsb_false.
Qed.

Lemma elem_of_default_lookup {A : Type} (m : gmap node (list A)) (v : node) (x : A) :
  x ∈ default [] (m !! v) → ∃ old, m !! v = Some old ∧ x ∈ old.
Proof.
  destruct (m !! v) as [old|]; simpl; [eauto|]. intros []%elem_of_nil.
Qed.

(** *** Every stored label respects the budgets *)

Lemma reach_budget :
  length max_res = n_res G → Forall (λ m, 0 ≤ m) max_res → bounds_nonneg res_min →
  ∀ st, reach st →
    ∀ v ls lab, labels st !! v = Some ls → lab ∈ ls → budget lab.2.
Proof.
  intros Hlen Hpos Hb st Hreach.
  induction Hreach as [|st u_label L' _ IH _|st u l [v' e] st' _ IH Hext];
    intros v ls lab Hv Hlab.
  - simpl in Hv. apply lookup_singleton_Some in Hv as [<- <-].
    apply list_elem_of_singleton in Hlab as ->. simpl. intros res Hres.
    destruct (lookup_lt_is_Some_2 max_res res) as [m Hm]; [lia|].
    exists 0, m. split_and!; [|done|].
    + apply lookup_replicate_2. lia.
    + by apply (Forall_lookup_1 _ _ _ _ Hpos Hm).
  - by apply (IH v ls).
  - apply extend_label_inv in Hext
      as [->|(c & r & ls' & ps & L' & pv & v_path & lu & parent & el &
            _ & _ & _ & _ & Hce & _ & Hsd & Hrd & ->)];
      [by apply (IH v ls)|].
    simpl in Hv. rewrite lookup_insert in Hv. case_decide as Heq.
    + simplify_eq. apply elem_of_app in Hlab as [Hlab|Hlab].
      * apply (remove_dominated_kept _ _ _ _ _ _ _ _ _ Hrd) in Hlab as [Hlab _].
        apply elem_of_default_lookup in Hlab as (old & Hold & Hlab).
        by apply (IH v old).
      * apply list_elem_of_singleton in Hlab as ->. simpl.
        eapply sd_budget; [|done]. by eapply check_edge_budget.
    + by apply (IH v ls).
Qed.

(** *** No stored label dominates a label of the same node *)

Lemma reach_non_dominated :
  bounds_nonneg res_min → self_zero res_min →
  ∀ st, reach st → ∀ v ls, labels st !! v = Some ls → non_dominated ls.
Proof.
  intros Hb Hz st Hreach.
  induction Hreach as [|st u_label L' _ IH _|st u l [v' e] st' _ IH Hext];
    intros v ls Hv.
  - simpl in Hv. apply lookup_singleton_Some in Hv as [<- <-].
    intros a b ->%list_elem_of_singleton ->%list_elem_of_singleton.
    apply _is_dominated_irrefl.
  - by apply (IH v).
  - apply extend_label_inv in Hext
      as [->|(c & r & ls' & ps & L' & pv & v_path & lu & parent & el &
            _ & _ & _ & _ & Hce & Hnd & Hsd & Hrd & ->)];
      [by apply (IH v)|].
    simpl in Hv. rewrite lookup_insert in Hv. case_decide as Heq; [|by apply (IH v)].
    simplify_eq.
    assert (r = c.2) as ->.
    { eapply sd_noop; [done| |done]. by eapply check_edge_budget. }
    destruct c as [cc cr]. simpl in *.
    pose proof (remove_dominated_kept _ _ _ _ _ _ _ _ _ Hrd) as Hkept.
    intros a b [Ha| ->%list_elem_of_singleton]%elem_of_app
               [Hb'| ->%list_elem_of_singleton]%elem_of_app.
    + destruct (Hkept a Ha) as [(old & Hold & Ha')%elem_of_default_lookup _].
      destruct (Hkept b Hb') as [Hb'' _]. rewrite Hold in Hb''. simpl in Hb''.
      by apply (IH v old).
    + by destruct (Hkept a Ha).
    + apply Hnd. by destruct (Hkept b Hb').
    + apply _is_dominated_irrefl.
Qed.

(** *** The states of the loop *)

(** The states between the edges of one pass. *)
Lemma GLSA_edges_reach (u : node) (l : nat) (es : list (node * edge_data))
    (st st' : GLSA_state) :
  reach st → foldM (extend u l) st es = Ok st' → reach st'.
Proof.
  apply (foldM_invariant (λ s, reach s)).
  intros s ve s' Hs Hext. by eapply reach_extend.
Qed.

Lemma GLSA_iter_reach (st st' : GLSA_state) :
  reach st → GLSA_iter set_iter G source target max_res res_min SS st = Ok st' → reach st'.
Proof.
  unfold GLSA_iter. intros Hst H. inv_ok.
  eapply GLSA_edges_reach; [|done]. by eapply reach_select.
Qed.

Lemma GLSA_loop_reach (fuel : nat) :
  ∀ st st', reach st →
    GLSA_loop set_iter G source target max_res res_min SS fuel st = Ok st' → reach st'.
Proof.
  induction fuel as [|fuel IH]; intros st st' Hst H; simpl in H.
  - destruct (L st); [|discriminate]. by simplify_eq.
  - destruct (L st); [by simplify_eq|].
    inv_ok. eapply IH; [|done]. by eapply GLSA_iter_reach.
Qed.

Lemma cheapest_elem (pt : option (list path)) (ls : list label) :
  ∀ p best r bp lab,
    cheapest pt p ls best = Ok r → r = Some (bp, lab) →
    lab ∈ ls ∨ ∃ bp0, best = Some (bp0, lab).
Proof.
  induction ls as [|x ls IH]; simpl; intros p best r bp lab H Hr.
  - inv_ok. subst. eauto.
  - destruct (match best with Some b => x.1 <? b.2.1 | None => true end).
    + inv_ok. destruct (IH _ _ _ _ _ H Hr) as [Hin|[bp0 Hb]].
      * left. by right.
      * simplify_eq. left. by left.
    + destruct (IH _ _ _ _ _ H Hr) as [Hin|[bp0 Hb]]; [left; by right|eauto].
Qed.

Lemma select_cheapest_elem (st : GLSA_state) (p : path) (lab : label) :
  select_cheapest target st = Ok (p, lab) →
  ∃ ls, labels st !! target = Some ls ∧ lab ∈ ls.
Proof.
  unfold select_cheapest. intros H. inv_ok.
  destruct (cheapest_elem _ _ _ _ _ _ _ Ha0 H) as [Hin|[bp0 [=]]]. eauto.
Qed.

(** The returned label is a label that the final state holds at
    [target]. *)
Lemma GLSA_returns_stored (fuel : nat) (p : path) (lab : label) :
  GLSA set_iter G source target max_res res_min SS fuel = Ok (p, lab) →
  ∃ st ls, reach st ∧ labels st !! target = Some ls ∧ lab ∈ ls.
Proof.
  unfold GLSA. intros H. inv_ok.
  apply select_cheapest_elem in H as (ls & Hls & Hin).
  exists a, ls. split_and!; [|done..].
  eapply GLSA_loop_reach; [|done]. constructor.
Qed.


(** *** Every stored label has [n_res + len(S)] entries *)

Lemma e_loc_length (v : node) (e : edge_data) (el : list Z) :
  e_loc G SS v e = Ok el → length el = (n_res G + length SS)%nat.
Proof.
  unfold e_loc, set_slice. intros H. inv_ok. cbv zeta in H. subst el.
  assert (length a = n_res G) as Hla.
  { repeat case_bool_decide; inv_ok; subst; [done|by rewrite length_replicate]. }
  destruct (bool_decide (v ∈ SS)); rewrite ?length_insert, length_app, length_replicate; lia.
Qed.

Lemma reach_length :
  ∀ st, reach st →
    ∀ v ls lab, labels st !! v = Some ls → lab ∈ ls →
      length lab.2 = (n_res G + length SS)%nat.
Proof.
  intros st Hreach.
  induction Hreach as [|st u_label L' _ IH _|st u l [v' e] st' _ IH Hext];
    intros v ls lab Hv Hlab.
  - simpl in Hv. apply lookup_singleton_Some in Hv as [<- <-].
    apply list_elem_of_singleton in Hlab as ->. simpl. by rewrite length_replicate.
  - by apply (IH v ls).
  - apply extend_label_inv in Hext
      as [->|(c & r & ls' & ps & L' & pv & v_path & lu & parent & el &
            Hlu & Hpar & Hel & -> & _ & _ & Hsd & Hrd & ->)];
      [by apply (IH v ls)|].
    simpl in Hv. rewrite lookup_insert in Hv. case_decide as Heq; [|by apply (IH v ls)].
    simplify_eq. apply elem_of_app in Hlab as [Hlab|Hlab].
    + apply (remove_dominated_kept _ _ _ _ _ _ _ _ _ Hrd) in Hlab as [Hlab _].
      apply elem_of_default_lookup in Hlab as (old & Hold & Hlab).
      by apply (IH v old).
    + apply list_elem_of_singleton in Hlab as ->. simpl in *.
      apply sd_frame in Hsd as [-> _].
      rewrite length_zip_with, (e_loc_length _ _ _ Hel).
      rewrite (IH u lu parent Hlu); [lia|]. by eapply list_elem_of_lookup_2.
Qed.

(** *** The feasibility test *)

Lemma check_edge_total (v : node) (r : list Z) (rs : list nat) :
  (∀ res, res ∈ rs →
     is_Some (r !! res) ∧ is_Some (max_res !! res) ∧
     ∃ tbl, res_min !! res = Some tbl ∧ is_Some (tbl !! v)) →
  ∃ b, check_edge v r rs = Ok b ∧
    (b = true ↔
     ∀ res x tbl row m, res ∈ rs →
       r !! res = Some x → res_min !! res = Some tbl → tbl !! v = Some row →
       max_res !! res = Some m →
       x + match row !! target with Some d => d | None => 0 end ≤ m).
Proof.
  induction rs as [|res0 rs IH]; intros Hrs.
  - exists true. split; [done|]. split; [|done].
    intros _ res x tbl row m Hin. by apply elem_of_nil in Hin.
  - destruct (Hrs res0) as ([x Hx] & [m Hm] & tbl & Htbl & [row Hrow]); [by left|].
    destruct IH as (b & Hb & Hiff). { intros res Hin. apply Hrs. by right. }
    simpl. rewrite Hx, Htbl. simpl. rewrite Hrow, Hm. simpl.
    assert (default 0 (row !! target) = match row !! target with Some d => d | None => 0 end)
      as -> by (by destruct (row !! target)).
    destruct (Z.gtb_spec (x + match row !! target with Some d => d | None => 0 end) m)
      as [Hgt|Hle].
    + exists false. split; [done|]. split; [discriminate|].
      intros Hall.
      pose proof (Hall res0 x tbl row m ltac:(by left) Hx Htbl Hrow Hm) as Hle.
      exfalso. revert Hgt Hle. generalize (match row !! target with Some d => d | None => 0 end).
      intros; lia.
    + exists b. split; [done|]. rewrite Hiff. split.
      * intros Hall res x' tbl' row' m' [->|Hin]%elem_of_cons; [|by apply Hall].
        intros. by simplify_eq.
      * intros Hall res x' tbl' row' m' Hin. apply Hall. by right.
Qed.


Lemma foldM_const {A B : Type} (f : A → B → result A) (xs : list B) (a : A) :
  (∀ x, x ∈ xs → f a x = Ok a) → foldM f a xs = Ok a.
Proof.
  induction xs as [|x xs IH]; simpl; intros Hf; [done|].
  rewrite Hf by (by left). simpl. apply IH. intros y Hy. apply Hf. by right.
Qed.

Lemma sd_step_ok (n : node) (r : list Z) (res : nat) :
  self_zero res_min → budget r → (res < n_res G)%nat →
  has_rows res_min (n_res G) n →
  sd_step n r res = Ok r.
Proof.
  intros Hz Hr Hres Hrows.
  destruct (Hr res Hres) as (x & m & Hx & Hm & Hle).
  destruct (Hrows res Hres) as (tbl & Htbl & [row Hrow]).
  unfold strong_dominance_step. rewrite Hx, Htbl. simpl. rewrite Hrow, Hm. simpl.
  rewrite (self_zero_lookup _ _ _ _ _ Hz Htbl Hrow).
  by destruct (Z.gtb_spec (x + 0) m); [lia|].
Qed.

(** C2: when the budgets and the entries of the bound table are
    non-negative, every label that a GLSA invocation ever stores at a node,
    and so the label that it returns, has its first [n_res] entries within
    [max_res]; the feasibility test reads a bound from [v] to [target] that
    the table lacks as 0 and does not fail for it. *)
Theorem GLSA_labels_within_budget :
  length max_res = n_res G → Forall (λ m, 0 ≤ m) max_res → bounds_nonneg res_min →
  (∀ st v ls lab,
     reach st → labels st !! v = Some ls → lab ∈ ls → budget lab.2) ∧
  (∀ fuel p lab,
     GLSA set_iter G source target max_res res_min SS fuel = Ok (p, lab) →
     budget lab.2) ∧
  (∀ v r,
     has_rows res_min (n_res G) v → (n_res G ≤ length r)%nat →
     ∃ b, check_edge v r (seq 0 (n_res G)) = Ok b ∧
       (b = true ↔
        ∀ res x tbl row m, (res < n_res G)%nat →
          r !! res = Some x → res_min !! res = Some tbl → tbl !! v = Some row →
          max_res !! res = Some m →
          x + match row !! target with Some d => d | None => 0 end ≤ m)).
Proof.
  intros Hlen Hpos Hb. split_and!.
  - intros st v ls lab Hst. by apply reach_budget.
  - intros fuel p lab (st & ls & Hst & Hls & Hin)%GLSA_returns_stored.
    by eapply reach_budget.
  - intros v r Hrows Hr.
    destruct (check_edge_total v r (seq 0 (n_res G))) as (b & Hb' & Hiff).
    { intros res Hres%elem_of_seq. split_and!.
      - apply lookup_lt_is_Some_2. lia.
      - apply lookup_lt_is_Some_2. lia.
      - apply Hrows. lia. }
    exists b. split; [done|]. rewrite Hiff. split.
    + intros Hall res x tbl row m Hres. apply Hall, elem_of_seq. lia.
    + intros Hall res x tbl row m Hres%elem_of_seq. apply Hall. lia.
Qed.

(** C8: the dominance relation [_is_dominated] is irreflexive, asymmetric
    and transitive on the labels of one shape; all the labels that GLSA
    holds have one shape, and, on a bound table of least consumptions
    (non-negative entries, zero from a node to itself), no label that GLSA
    holds at a node dominates another label held at that node. *)
Theorem dominance_strict_partial_order :
  (∀ a, _is_dominated a a = false) ∧
  (∀ a b, _is_dominated a b = true → _is_dominated b a = false) ∧
  (∀ a b c, length a.2 = length b.2 → length b.2 = length c.2 →
     _is_dominated a b = true → _is_dominated b c = true → _is_dominated a c = true) ∧
  (∀ st v ls a,
     reach st → labels st !! v = Some ls → a ∈ ls →
     length a.2 = (n_res G + length SS)%nat) ∧
  (bounds_nonneg res_min → self_zero res_min →
   ∀ st v ls a b,
     reach st → labels st !! v = Some ls → a ∈ ls → b ∈ ls →
     _is_dominated a b = false).
Proof.
  split_and!.
  - apply _is_dominated_irrefl.
  - apply _is_dominated_asym.
  - apply _is_dominated_trans.
  - intros st v ls a Hst. by apply reach_length.
  - intros Hb Hz st v ls a b Hst Hls. by apply (reach_non_dominated Hb Hz st Hst v ls).
Qed.

(** C10: on a bound table of least consumptions (non-negative entries,
    zero from a node to itself) the strong dominance step leaves every
    candidate that has passed the feasibility test unchanged: the bound it
    reads is the one from [n] to [n], so it sets no node resource to 1. *)
Theorem strong_dominance_leaves_label_unchanged :
  bounds_nonneg res_min → self_zero res_min →
  ∀ v r,
    check_edge v r (seq 0 (n_res G)) = Ok true →
    (∀ r', sd r = Ok r' → r' = r) ∧
    ((∀ n, n ∈ SS → has_rows res_min (n_res G) n) → sd r = Ok r).
Proof.
  intros Hb Hz v r Hce.
  assert (budget r) as Hr by (by eapply check_edge_budget).
  split.
  - intros r'. by apply sd_noop.
  - intros Hrows. unfold strong_dominance. apply foldM_const.
    intros n Hn. apply foldM_const.
    intros res Hres%elem_of_seq. apply sd_step_ok; auto. lia.
Qed.

(** C9: an edge into [source] stops the search at once: its treatment
    raises [SystemExit] (the code logs 'ERROR: source cannot be a child'
    and quits) before a candidate label is computed, no later edge is
    treated, and the loop of GLSA ends with that exception. *)
Theorem GLSA_quits_on_source_child :
  ∀ (u : node) (l : nat) (e : edge_data),
    (∀ st, extend u l st (source, e) = Raise SystemExit) ∧
    (∀ st es1 es2 st1,
       foldM (extend u l) st es1 = Ok st1 →
       foldM (extend u l) st (es1 ++ (source, e) :: es2) = Raise SystemExit) ∧
    (∀ fuel st L' es1 es2 st1,
       select_label set_iter G SS st = Ok (u, l) →
       set_remove (u, l) (L st) = Ok L' →
       succ G u = Ok (es1 ++ (source, e) :: es2) →
       foldM (extend u l) (mk_state (paths st) (labels st) L') es1 = Ok st1 →
       GLSA_loop set_iter G source target max_res res_min SS (S fuel) st
       = Raise SystemExit).
Proof.
  intros u l e.
  assert (∀ st, extend u l st (source, e) = Raise SystemExit) as Hquit.
  { intros st. unfold extend_label. by rewrite bool_decide_eq_true_2. }
  assert (∀ st es1 es2 st1,
       foldM (extend u l) st es1 = Ok st1 →
       foldM (extend u l) st (es1 ++ (source, e) :: es2) = Raise SystemExit) as Hfold.
  { intros st es1 es2 st1 H1. by rewrite foldM_app, H1, bind_Ok_l, foldM_cons, Hquit. }
  split_and!; [done..|].
  intros fuel st L' es1 es2 st1 Hsel Hrem Hsucc H1. simpl.
  destruct (L st) as [|x Lst] eqn:HL.
  { unfold set_remove in Hrem. rewrite bool_decide_eq_false_2 in Hrem; [done|].
    apply not_elem_of_nil. }
  unfold GLSA_iter. rewrite Hsel, bind_Ok_l, HL, Hrem, bind_Ok_l. simpl fst; simpl snd.
  by rewrite Hsucc, bind_Ok_l, (Hfold _ _ _ _ H1).
Qed.

End GLSA_properties.

(** ** The state space augmenting algorithm *)

Lemma py_max_fold_ge (xs : list nat) (x0 : nat) :
  (x0 ≤ fold_left (λ m y, if (m <? y)%nat then y else m) xs x0)%nat ∧
  ∀ x, x ∈ xs → (x ≤ fold_left (λ m y, if (m <? y)%nat then y else m) xs x0)%nat.
Proof.
  revert x0. induction xs as [|y xs IH]; intros x0; simpl.
  - split; [lia|]. intros x []%elem_of_nil.
  - destruct (IH (if (x0 <? y)%nat then y else x0)) as [H0 Hxs].
    destruct (Nat.ltb_spec x0 y); split; try lia.
    + intros x [->|Hx]%elem_of_cons; [lia|by apply Hxs].
    + intros x [->|Hx]%elem_of_cons; [lia|by apply Hxs].
Qed.

Lemma py_max_ge (xs : list nat) (m : nat) :
  py_max xs = Ok m → ∀ x, x ∈ xs → (x ≤ m)%nat.
Proof.
  destruct xs as [|x0 xs]; simpl; intros H; inv_ok. subst m.
  destruct (py_max_fold_ge xs x0) as [H0 Hxs].
  intros x [->|Hx]%elem_of_cons; auto.
Qed.

Lemma count_elems_values (p : path) (n : node) :
  n ∈ p → count_occ Nat.eq_dec p n ∈ (count_elems p).*2.
Proof.
  intros Hn. unfold count_elems. rewrite <- list_fmap_compose.
  apply (list_elem_of_fmap_2 (λ n, count_occ Nat.eq_dec p n)).
  by rewrite elem_of_reverse, elem_of_remove_dups, elem_of_reverse.
Qed.

(** A path whose greatest node multiplicity is 1 repeats no node. *)
Lemma max_mult_1_NoDup (p : path) :
  py_max (count_elems p).*2 = Ok 1%nat → NoDup p.
Proof.
  intros Hmax. apply NoDup_ListNoDup, NoDup_count_occ with (decA := Nat.eq_dec).
  intros n. destruct (decide (n ∈ p)) as [Hin|Hnot].
  - apply (py_max_ge _ _ Hmax). by apply count_elems_values.
  - rewrite (proj1 (count_occ_not_In Nat.eq_dec p n)); [lia|].
    by rewrite <- list_elem_of_In.
Qed.

Section GSSA_properties.

Variable set_iter : list pending → list pending.
Variable G : DiGraph.
Variables source target : node.
Variable max_res : list Z.
Variable res_min : list (gmap node (gmap node Z)).

Lemma GSSA_loop_elementary (fuel gfuel : nat) :
  ∀ SS p lab,
    GSSA_loop set_iter G source target max_res res_min fuel gfuel SS = Ok (p, lab) →
    NoDup p.
Proof.
  induction fuel as [|fuel IH]; simpl; intros SS p lab H; [discriminate|].
  inv_ok. destruct a as [path0 label0]. inv_ok.
  destruct (a =? 1)%nat eqn:Hone.
  - inv_ok. simplify_eq. apply Nat.eqb_eq in Hone as ->. by apply max_mult_1_NoDup.
  - inv_ok. by eapply IH.
Qed.

(** C1: whenever GSSA returns, the path that it returns visits no node
    more than once: the loop ends only on a GLSA result whose greatest
    node multiplicity is 1. *)
Theorem GSSA_returns_elementary_path :
  ∀ fuel gfuel p lab,
    GSSA set_iter G source target max_res res_min fuel gfuel = Ok (p, lab) →
    NoDup p.
Proof. intros fuel gfuel p lab. apply GSSA_loop_elementary. Qed.

End GSSA_properties.

(** ** Preprocessing: the reduced graph *)

Lemma find_snoc {A : Type} (f : A → bool) (l : list A) (x : A) :
  find f (l ++ [x]) =
  match find f l with Some y => Some y | None => if f x then Some x else None end.
Proof.
  induction l as [|y l IH]; simpl; [done|]. by destruct (f y).
Qed.

Lemma has_edge_true (G : DiGraph) (u v : node) :
  has_edge G u v = true ↔ is_Some (get_edge_data G u v).
Proof. unfold has_edge. apply bool_decide_eq_true. Qed.

Lemma has_edge_false (G : DiGraph) (u v : node) :
  has_edge G u v = false ↔ get_edge_data G u v = None.
Proof.
  unfold has_edge. rewrite bool_decide_eq_false, <- eq_None_not_Some. done.
Qed.

(** The edges of a graph after a new edge has been added. *)
Lemma get_edge_data_add_edge (H : DiGraph) (u v u' v' : node) (e : edge_data) :
  has_edge H u v = false →
  get_edge_data (add_edge u v e H) u' v' =
  if decide (u' = u ∧ v' = v) then Some e else get_edge_data H u' v'.
Proof.
  intros Hnew. unfold add_edge, get_edge_data at 1. simpl. rewrite Hnew, find_snoc.
  unfold is_edge at 2. simpl.
  case_decide as Heq.
  - destruct Heq as [-> ->]. apply has_edge_false in Hnew.
    unfold get_edge_data in Hnew. destruct (find _ _); [done|].
    by rewrite !bool_decide_eq_true_2.
  - unfold get_edge_data. destruct (find _ _); [done|].
    repeat case_bool_decide; simpl; try done. destruct Heq. split; congruence.
Qed.

Lemma elem_of_add_node (n m : node) (ns : list node) :
  n ∈ add_node m ns ↔ n ∈ ns ∨ n = m.
Proof.
  unfold add_node. case_bool_decide.
  - split; [by left|]. by intros [?| ->].
  - by rewrite elem_of_app, list_elem_of_singleton.
Qed.

Lemma elem_of_nodes_add_edge (H : DiGraph) (u v n : node) (e : edge_data) :
  n ∈ nodes (add_edge u v e H) ↔ n ∈ nodes H ∨ n = u ∨ n = v.
Proof. unfold add_edge. simpl. rewrite !elem_of_add_node. tauto. Qed.

Section Reduced_graph.

Variable G : DiGraph.

Lemma copied_snoc_old (H : DiGraph) (ps : list (node * node)) (p : node * node) :
  copied G H ps →
  (is_Some (get_edge_data G p.1 p.2) → p ∈ ps) →
  copied G H (ps ++ [p]).
Proof.
  intros [Hedges Hnodes] Hp. split.
  - intros u v e. rewrite Hedges. split.
    + intros [Hin He]. split; [|done]. apply elem_of_app. by left.
    + intros [[Hin|Heq%list_elem_of_singleton]%elem_of_app He]; [done|].
      subst p. split; [|done]. apply Hp. simpl. by rewrite He.
  - intros n. rewrite Hnodes. split.
    + intros (u & v & Hin & Hsome & Hn). exists u, v.
      split_and!; [|done..]. apply elem_of_app. by left.
    + intros (u & v & [Hin|Heq%list_elem_of_singleton]%elem_of_app & Hsome & Hn);
        exists u, v; split_and!; try done.
      subst p. by apply Hp.
Qed.

Lemma copied_copy_edge (H : DiGraph) (ps : list (node * node)) (p : node * node) :
  copied G H ps → copied G (copy_edge G H p) (ps ++ [p]).
Proof.
  intros Hc. unfold copy_edge.
  destruct (get_edge_data G p.1 p.2) as [[w rc]|] eqn:HG.
  - rewrite (proj2 (has_edge_true G p.1 p.2)) by (rewrite HG; eauto). simpl.
    destruct (has_edge H p.1 p.2) eqn:HH; simpl.
    + (* the edge is there already *)
      apply copied_snoc_old; [done|]. intros _.
      apply has_edge_true in HH as [e He].
      destruct Hc as [Hedges _]. apply Hedges in He as [Hin _]. by destruct p.
    + destruct Hc as [Hedges Hnodes]. destruct p as [pu pv]. simpl in *. split.
      * intros u v e. rewrite get_edge_data_add_edge by done.
        rewrite elem_of_app, list_elem_of_singleton. case_decide as Heq.
        -- destruct Heq as [-> ->]. rewrite HG. split.
           ++ intros [= <-]. split; [by right|done].
           ++ by intros [_ [= <-]].
        -- rewrite Hedges. split.
           ++ intros [Hin He]. split; [by left|done].
           ++ intros [[Hin|[= -> ->]] He]; [done|]. by destruct Heq.
      * intros n. rewrite elem_of_nodes_add_edge, Hnodes. split.
        -- intros [(u & v & Hin & Hsome & Hn)|Hn].
           ++ exists u, v. split_and!; [|done..]. apply elem_of_app. by left.
           ++ exists pu, pv. rewrite HG. split_and!; [|by eauto|done].
              apply elem_of_app. right. by apply list_elem_of_singleton.
        -- intros (u & v & [Hin|Heq%list_elem_of_singleton]%elem_of_app & Hsome & Hn).
           ++ left. by exists u, v.
           ++ simplify_eq. by right.
  - rewrite (proj2 (has_edge_false G p.1 p.2)) by done. simpl.
    apply copied_snoc_old; [done|]. rewrite HG. by intros [? [=]].
Qed.

Lemma copied_fold (ps : list (node * node)) :
  copied G (fold_left (copy_edge G) ps (empty_graph (n_res G))) ps.
Proof.
  induction ps as [|p ps IH] using rev_ind.
  - split.
    + intros u v e. simpl. unfold get_edge_data. simpl.
      split; [done|]. intros [[]%elem_of_nil _].
    + intros n. simpl. split; [intros []%elem_of_nil|].
      intros (u & v & []%elem_of_nil & _).
  - rewrite fold_left_app. simpl. by apply copied_copy_edge.
Qed.

Lemma elem_of_list_prod_diag (l : list node) (u v : node) :
  (u, v) ∈ list_prod l l ↔ u ∈ l ∧ v ∈ l.
Proof. rewrite !list_elem_of_In. apply in_prod_iff. Qed.

(** The reduced graph has the edges of [G] between the surviving nodes and
    the nodes that such an edge touches. *)
Lemma reduced_graph_spec (surv : list node) :
  (∀ u v e, get_edge_data (reduced_graph G surv) u v = Some e ↔
            u ∈ surv ∧ v ∈ surv ∧ get_edge_data G u v = Some e) ∧
  (∀ n, n ∈ nodes (reduced_graph G surv) ↔
        n ∈ surv ∧ ∃ m, m ∈ surv ∧ (has_edge G n m = true ∨ has_edge G m n = true)).
Proof.
  destruct (copied_fold (list_prod surv surv)) as [Hedges Hnodes].
  fold (reduced_graph G surv) in Hedges, Hnodes. split.
  - intros u v e. rewrite Hedges, elem_of_list_prod_diag. tauto.
  - intros n. rewrite Hnodes. setoid_rewrite elem_of_list_prod_diag.
    setoid_rewrite has_edge_true. split.
    + intros (u & v & [Hu Hv] & Hsome & [->| ->]); eauto.
    + intros (Hn & m & Hm & [Hsome|Hsome]); [exists n, m|exists m, n]; eauto.
Qed.

End Reduced_graph.

(** C7, amended: the reduced graph that the preprocessing returns has
    exactly the edges of the input graph whose two end points survive, with
    their weight and their resource costs; its nodes are the surviving
    nodes that have an edge to or from a surviving node. *)
Theorem preprocess_reduced_graph_edges :
  ∀ G source target max_res H res_min,
    preprocess_ESPPRC G source target max_res = Ok (H, res_min) →
    ∃ surv,
      surviving_nodes G source target max_res = Ok surv ∧
      (∀ u v e, get_edge_data H u v = Some e ↔
                u ∈ surv ∧ v ∈ surv ∧ get_edge_data G u v = Some e) ∧
      (∀ n, n ∈ nodes H ↔
            n ∈ surv ∧ ∃ m, m ∈ surv ∧ (has_edge G n m = true ∨ has_edge G m n = true)).
Proof.
  intros G source target max_res H res_min Hpre.
  unfold preprocess_ESPPRC in Hpre. inv_ok. simplify_eq.
  exists a. split; [done|]. apply reduced_graph_spec.
Qed.

(** ** Preprocessing: the table of least consumptions *)

Lemma elem_of_succ (G : DiGraph) (u v : node) (e : edge_data) es :
  succ G u = Ok es → (v, e) ∈ es → (u, v, e) ∈ adj G.
Proof.
  unfold succ. case_bool_decide; [|done]. intros [= <-].
  rewrite list_elem_of_omap. intros ([[u' v'] e'] & Hin & Hx). simpl in Hx.
  case_bool_decide; by simplify_eq.
Qed.

Section Dijkstra_properties.

Variable wt : edge_data → result Z.
Variable G : DiGraph.
Variable cutoff : option Z.

(** The weights are non-negative. *)
Hypothesis wt_nonneg : ∀ x c, x ∈ adj G → wt x.2 = Ok c → 0 ≤ c.

Local Abbreviation nonneg_fringe := (Forall (λ h : heap_entry, 0 ≤ h.1.1)).

Lemma heappush_Forall (P : heap_entry → Prop) (x : heap_entry) (h : list heap_entry) :
  P x → Forall P h → Forall P (heappush x h).
Proof.
  intros Hx. induction h as [|y h IH]; simpl; intros Hh.
  - by constructor.
  - apply Forall_cons in Hh as [Hy Hh]. destruct (heap_lt x y); repeat constructor; auto.
Qed.

Lemma relax_nonneg (dist : gmap node Z) (d : Z) (v u : node) (e : edge_data) s s' :
  0 ≤ d → (v, u, e) ∈ adj G → nonneg_fringe s.1.2 →
  relax wt cutoff dist d s (u, e) = Ok s' → nonneg_fringe s'.1.2.
Proof.
  intros Hd Hin Hs. destruct s as [[seen fringe] c]. unfold relax. intros H. inv_ok.
  pose proof (wt_nonneg _ _ Hin Ha) as Hc.
  destruct (match cutoff with Some k => d + a >? k | None => false end);
    [by inv_ok; subst|].
  destruct (dist !! u).
  - destruct (_ <? _); by inv_ok; subst.
  - destruct (match seen !! u with Some su => d + a <? su | None => true end);
      inv_ok; subst; [|done].
    simpl in *. apply heappush_Forall; [simpl; lia|done].
Qed.

Lemma dijkstra_loop_nonneg (fuel : nat) :
  ∀ dist seen fringe c r,
    map_Forall (λ (_ : node) x, 0 ≤ x) dist → nonneg_fringe fringe →
    dijkstra_loop wt G cutoff fuel dist seen fringe c = Ok r →
    map_Forall (λ (_ : node) x, 0 ≤ x) r.
Proof.
  induction fuel as [|fuel IH]; intros dist seen fringe c r Hdist Hfr H;
    destruct fringe as [|[[d k] v] fringe]; simpl in H; inv_ok; subst; try done.
  apply Forall_cons in Hfr as [Hd Hfr]. simpl in Hd.
  case_bool_decide; [by eapply IH|].
  inv_ok. destruct a0 as [[seen' fringe'] c']. eapply IH; [| |done].
  - by apply map_Forall_insert_2.
  - refine (foldM_invariant_elem (λ s, nonneg_fringe s.1.2) _ _ _
              (seen, fringe, c) (seen', fringe', c') Hfr Ha0).
    intros s [u e] s' Hin Hs. apply (relax_nonneg _ _ v); [done| |done].
    by eapply elem_of_succ.
Qed.

(** A distance, once set, is final. *)
Lemma dijkstra_loop_final (fuel : nat) :
  ∀ dist seen fringe c r n x,
    dist !! n = Some x →
    dijkstra_loop wt G cutoff fuel dist seen fringe c = Ok r →
    r !! n = Some x.
Proof.
  induction fuel as [|fuel IH]; intros dist seen fringe c r n x Hn H;
    destruct fringe as [|[[d k] v] fringe]; simpl in H; inv_ok; subst; try done.
  case_bool_decide as Hv; [by eapply IH|].
  inv_ok. destruct a0 as [[seen' fringe'] c']. eapply IH; [|done].
  rewrite lookup_insert_ne; [done|]. intros ->. apply Hv. by rewrite Hn.
Qed.

Lemma dijkstra_loop_first (fuel : nat) (src : node) seen k c r :
  dijkstra_loop wt G cutoff fuel ∅ seen [(0, k, src)] c = Ok r → r !! src = Some 0.
Proof.
  destruct fuel as [|fuel]; simpl; [done|].
  rewrite lookup_empty, bool_decide_eq_false_2 by (by intros [? [=]]).
  intros H. inv_ok. destruct a0 as [[seen' fringe'] c'].
  eapply dijkstra_loop_final; [|done]. apply lookup_insert_eq.
Qed.

(** The distances from [src] are non-negative, and the one of [src]
    itself is 0. *)
Lemma single_source_dijkstra_nonneg (src : node) (r : gmap node Z) :
  single_source_dijkstra_path_length wt G cutoff src = Ok r →
  r !! src = Some 0 ∧ map_Forall (λ (_ : node) x, 0 ≤ x) r.
Proof.
  unfold single_source_dijkstra_path_length. case_bool_decide as Hsrc; [|done].
  intros Hr. split.
  - by eapply dijkstra_loop_first.
  - eapply dijkstra_loop_nonneg; [| |done].
    + apply map_Forall_empty.
    + by repeat constructor.
Qed.

(** The table of all pairs has a row for every node, and every row is a
    dictionary of distances from its node. *)
Lemma all_pairs_rows (tbl : gmap node (gmap node Z)) :
  all_pairs_dijkstra_path_length wt G cutoff = Ok tbl →
  (∀ n, n ∈ nodes G → is_Some (tbl !! n)) ∧
  (∀ n row, tbl !! n = Some row →
     row !! n = Some 0 ∧ map_Forall (λ (_ : node) x, 0 ≤ x) row).
Proof.
  unfold all_pairs_dijkstra_path_length. intros H. split.
  - revert H. generalize (∅ : gmap node (gmap node Z)).
    induction (nodes G) as [|m ns IH]; simpl; intros tbl0 H n Hn.
    + by apply elem_of_nil in Hn.
    + inv_ok. apply elem_of_cons in Hn as [->|Hn]; [|by eapply IH].
      assert (∀ ms (t0 t1 : gmap node (gmap node Z)),
                 is_Some (t0 !! m) →
                 foldM (λ tbl n, d ← single_source_dijkstra_path_length wt G cutoff n;
                                 Ok (<[n := d]> tbl)) t0 ms = Ok t1 →
                 is_Some (t1 !! m)) as Hkeep.
      { clear. induction ms as [|k ms IHms]; simpl; intros t0 t1 Hm H.
        - by inv_ok; subst.
        - inv_ok. eapply IHms; [|done]. subst.
          rewrite lookup_insert. case_decide; [eauto|done]. }
      eapply Hkeep; [|done]. subst. rewrite lookup_insert_eq. eauto.
  - refine (foldM_invariant
              (λ t : gmap node (gmap node Z), ∀ n row, t !! n = Some row →
                 row !! n = Some 0 ∧ map_Forall (λ (_ : node) x, 0 ≤ x) row)
              _ _ _ _ _ _ H).
    + intros t m t' Ht Hstep n row. inv_ok. subst.
      rewrite lookup_insert. case_decide.
      * intros [= <-]. subst. by apply single_source_dijkstra_nonneg.
      * apply Ht.
    + intros n row. by rewrite lookup_empty.
Qed.

End Dijkstra_properties.

Lemma get_edge_data_elem (G : DiGraph) (u v : node) (e : edge_data) :
  get_edge_data G u v = Some e → (u, v, e) ∈ adj G.
Proof.
  unfold get_edge_data. destruct (find _ _) as [[[u' v'] e']|] eqn:Hf; [|done].
  intros [= <-]. apply find_some in Hf as [Hin Hedge].
  unfold is_edge in Hedge. simpl in Hedge.
  apply andb_true_iff in Hedge as [->%bool_decide_eq_true ->%bool_decide_eq_true].
  by apply list_elem_of_In.
Qed.

(** The reduced graph keeps [n_res], and each of its edges is an edge of
    the input graph. *)
Lemma reduced_graph_adj (G : DiGraph) (surv : list node) :
  n_res (reduced_graph G surv) = n_res G ∧
  ∀ x, x ∈ adj (reduced_graph G surv) → x ∈ adj G.
Proof.
  unfold reduced_graph.
  induction (list_prod surv surv) as [|p ps IH] using rev_ind.
  - split; [done|]. simpl. intros x []%elem_of_nil.
  - rewrite fold_left_app. simpl. destruct IH as [Hn Hadj].
    generalize dependent (fold_left (copy_edge G) ps (empty_graph (n_res G))).
    intros H0 Hn Hadj. unfold copy_edge.
    destruct (has_edge G p.1 p.2 && negb (has_edge H0 p.1 p.2)) eqn:Hc; [|done].
    destruct (get_edge_data G p.1 p.2) as [[w rc]|] eqn:HG; [|done].
    apply andb_true_iff in Hc as [_ Hnew%negb_true_iff].
    split; [done|]. unfold add_edge. simpl. rewrite Hnew.
    intros x [Hx| ->%list_elem_of_singleton]%elem_of_app; [by apply Hadj|].
    by apply get_edge_data_elem.
Qed.

Lemma foldM_snoc_length {A B : Type} (g : B → result A) (xs : list B) :
  ∀ acc acc',
    foldM (λ acc x, y ← g x; Ok (acc ++ [y])) acc xs = Ok acc' →
    length acc' = (length acc + length xs)%nat.
Proof.
  induction xs as [|x xs IH]; simpl; intros acc acc' H.
  - inv_ok. subst. lia.
  - inv_ok. subst. apply IH in H. rewrite length_app in H. simpl in H. lia.
Qed.

(** On a graph with non-negative resource costs the preprocessing returns
    a table of least consumptions as GLSA expects it: one dictionary for
    every resource, with a row for every node of the reduced graph,
    non-negative entries, and 0 from a node to itself. *)
Theorem preprocess_bound_table :
  ∀ G source target max_res H res_min,
    edges_nonneg G →
    preprocess_ESPPRC G source target max_res = Ok (H, res_min) →
    n_res H = n_res G ∧ length res_min = n_res G ∧
    bounds_nonneg res_min ∧ self_zero res_min ∧
    ∀ v, v ∈ nodes H → has_rows res_min (n_res G) v.
Proof.
  intros G source target max_res H res_min HG Hpre.
  unfold preprocess_ESPPRC in Hpre. inv_ok. simplify_eq.
  destruct (reduced_graph_adj G a) as [Hn Hadj].
  set (H := reduced_graph G a) in *.
  set (Q := λ tbl : gmap node (gmap node Z),
         (∀ n, n ∈ nodes H → is_Some (tbl !! n)) ∧
         (∀ n row, tbl !! n = Some row →
            row !! n = Some 0 ∧ map_Forall (λ (_ : node) x, 0 ≤ x) row)).
  assert (Forall Q res_min) as HQ.
  { unfold least_resource_pairs in Ha0.
    refine (foldM_invariant (Forall Q) _ _ _ _ _ _ Ha0); [|constructor].
    intros acc res acc' Hacc Hstep. inv_ok. subst.
    apply Forall_app. split; [done|]. constructor; [|constructor].
    apply (all_pairs_rows (_res_cost_i res) H None); [|done].
    intros x c Hx%Hadj Hc. unfold _res_cost_i in Hc. inv_ok.
    unfold edges_nonneg in HG. rewrite Forall_forall in HG.
    specialize (HG x Hx). by apply (Forall_lookup_1 _ _ _ _ HG Hc). }
  assert (length res_min = n_res G) as Hlen.
  { unfold least_resource_pairs in Ha0. apply foldM_snoc_length in Ha0.
    by rewrite length_seq in Ha0. }
  split_and!; [done..| | |].
  - unfold bounds_nonneg. eapply Forall_impl; [exact HQ|].
    intros tbl [_ Hrows] n row Hrow. by destruct (Hrows n row Hrow).
  - unfold self_zero. eapply Forall_impl; [exact HQ|].
    intros tbl [_ Hrows] n row Hrow. destruct (Hrows n row Hrow) as [Hself _].
    simpl. by rewrite Hself.
  - intros v Hv res Hres.
    destruct (lookup_lt_is_Some_2 res_min res) as [tbl Htbl]; [lia|].
    exists tbl. split; [done|].
    rewrite Forall_lookup in HQ. by apply (HQ _ _ Htbl).
Qed.

(** ** The instances *)

(** The tables of the instances are the ones that the preprocessing
    computes. *)
Example preprocess_fork :
  preprocess_ESPPRC fork_graph nA nD [10] = Ok (fork_graph, fork_res_min).
Proof. vm_compute. reflexivity. Qed.

Example preprocess_detour :
  preprocess_ESPPRC detour_graph nA nD [3] = Ok (detour_reduced, detour_res_min).
Proof. vm_compute. reflexivity. Qed.

Example preprocess_cycle :
  preprocess_ESPPRC cycle_graph nA nD [6] = Ok (cycle_reduced, cycle_res_min).
Proof. vm_compute. reflexivity. Qed.

Example preprocess_reentrant :
  preprocess_ESPPRC reentrant_graph nA nD [100]
  = Ok (reentrant_reduced, reentrant_res_min).
Proof. vm_compute. reflexivity. Qed.

Example least_resource_pairs_infeasible :
  least_resource_pairs infeasible_graph infeasible_graph = Ok infeasible_res_min.
Proof. vm_compute. reflexivity. Qed.

Example fork_state_reached :
  GLSA_iter id fork_graph nA nD [10] fork_res_min [] (GLSA_init fork_graph nA [])
  = Ok fork_state.
Proof. vm_compute. reflexivity. Qed.

Example preprocess_chain :
  preprocess_ESPPRC chain_graph nA nE [2] = Ok (chain_reduced, chain_res_min).
Proof. vm_compute. reflexivity. Qed.

Example reentrant_state_reached :
  GLSA_iter id reentrant_reduced nA nD [100] reentrant_res_min []
    (GLSA_init reentrant_reduced nA [])
  = Ok reentrant_state.
Proof. vm_compute. reflexivity. Qed.

(** The second scenario of the specification: the search quits. *)
Example GLSA_reentrant_quits (fuel : nat) :
  GLSA id reentrant_reduced nA nD [100] reentrant_res_min [] (S (S fuel))
  = Raise SystemExit.
Proof. vm_compute. reflexivity. Qed.

(** ** The selection of the label to extend *)

Lemma LML_pass_head (lbls : gmap node (list label)) (res : nat) (prev : list pending) :
  ∀ m x acc l, LML_pass lbls res prev m (x :: acc) = Ok l → head l = Some x.
Proof.
  induction prev as [|y prev IH]; simpl; intros m x acc l H.
  - by inv_ok; subst.
  - inv_ok. destruct (match m with Some m0 => a <=? m0 | None => true end); eauto.
Qed.

Lemma LML_pass_first (lbls : gmap node (list label)) (res : nat)
    (prev l : list pending) :
  LML_pass lbls res prev None [] = Ok l → head l = head prev.
Proof.
  destruct prev as [|x prev]; simpl; intros H.
  - by inv_ok; subst.
  - inv_ok. by apply LML_pass_head in H.
Qed.

Lemma LML_loop_head (lbls : gmap node (list label)) (rs : list nat) :
  ∀ prev u r,
    LML_loop lbls rs prev u = Ok r →
    u = None ∨ u = head prev → r = None ∨ r = head prev.
Proof.
  induction rs as [|res rs IH]; simpl; intros prev u r H Hu.
  - inv_ok. by subst.
  - inv_ok. apply LML_pass_first in Ha.
    destruct a as [|x [|y tl]]; [discriminate| |].
    + inv_ok. subst. by right.
    + apply IH in H; [|by right]. simpl in *. rewrite <- Ha. done.
Qed.

(** Whatever the labels are, the entry that is selected is the first one
    in the iteration order of the work-set: a pass never drops the first
    entry, which it compares with [inf]. *)
Lemma select_label_head set_iter (G : DiGraph) (SS : list node) (st : GLSA_state)
    (u : pending) :
  select_label set_iter G SS st = Ok u → head (set_iter (L st)) = Some u.
Proof.
  unfold select_label. intros H. inv_ok.
  apply LML_loop_head in Ha; [|by left]. destruct Ha as [->| ->]; [discriminate|done].
Qed.

(** ** Evaluations on the instances *)

(** C3: on an instance where no label reaches [target] the final scan of
    GLSA reads [labels[target]] and raises [KeyError]; there is no
    'no feasible path' result. *)
Theorem GLSA_infeasible_raises_KeyError :
  ∀ fuel,
    GLSA id infeasible_graph nA nB [0] infeasible_res_min [] (S fuel) = Raise KeyError.
Proof. intros [|fuel]; vm_compute; reflexivity. Qed.

(** C4: on [fork_graph], once the source has been extended, the work-set
    holds the entries of [nB] and [nC]; the entry of [nB], with the
    resource vector [5], is selected although the entry of [nC] has the
    lexicographically smaller vector [3]. *)
Theorem select_label_not_lexicographically_least :
  GLSA_iter id fork_graph nA nD [10] fork_res_min [] (GLSA_init fork_graph nA [])
    = Ok fork_state ∧
  select_label id fork_graph [] fork_state = Ok (nB, 0%nat) ∧
  L fork_state = [(nB, 0%nat); (nC, 0%nat)] ∧
  labels fork_state !! nB = Some [(1, [5])] ∧
  labels fork_state !! nC = Some [(1, [3])] ∧
  lex_lt [3] [5] = true.
Proof. split_and!; vm_compute; reflexivity. Qed.

(** C5: on [detour_reduced] with [S = [nC]] and the budget 3, the
    candidate at [nB] consumes 3 units and the least consumption from [nB]
    to [nC] is 1, so [nC] is out of reach; the label is stored with the
    node resource of [nC] still 0. *)
Theorem strong_dominance_reads_self_distance :
  ∃ st tbl row,
    GLSA_iter id detour_reduced nA nD [3] detour_res_min [nC]
      (GLSA_init detour_reduced nA [nC]) = Ok st ∧
    labels st !! nB = Some [(1, [3; 0])] ∧
    detour_res_min !! 0%nat = Some tbl ∧ tbl !! nB = Some row ∧
    row !! nC = Some 1 ∧ 3 + 1 > 3 ∧
    strong_dominance detour_reduced [3] detour_res_min [nC] [3; 0] = Ok [3; 0].
Proof.
  do 3 eexists. split_and!; try (vm_compute; reflexivity).
Qed.

(** C6: when the target is not within the budget of the source the
    preprocessing does not re-add it: [reachable_nodes] is a set, the call
    of [append] raises [AttributeError]. *)
Theorem preprocess_infeasible_raises_AttributeError :
  preprocess_ESPPRC infeasible_graph nA nB [0] = Raise AttributeError.
Proof. vm_compute. reflexivity. Qed.

(** C7, as stated, fails on [chain_graph] with the budget 2: [nC]
    survives, but none of its neighbours does, and it is not a node of the
    reduced graph. *)
Lemma preprocess_drops_isolated_survivor :
  ∃ H res_min surv,
    preprocess_ESPPRC chain_graph nA nE [2] = Ok (H, res_min) ∧
    surviving_nodes chain_graph nA nE [2] = Ok surv ∧
    ¬ (∀ n, n ∈ nodes H ↔ n ∈ surv).
Proof.
  exists chain_reduced, chain_res_min, [nA; nE; nC].
  split_and!; [vm_compute; reflexivity..|].
  intros Hall. specialize (Hall nC). vm_compute in Hall.
  destruct Hall as [_ Hall].
  assert (nC ∈ [nA; nE; nC]) as Hin by (do 2 right; left).
  apply Hall in Hin.
  repeat (apply elem_of_cons in Hin as [Hin|Hin]; [discriminate|]).
  by apply elem_of_nil in Hin.
Qed.

(** ** The theorems on the instances *)

(** GSSA on the cycle instance: the first GLSA result repeats [nB], which
    enters [S]; the second result is elementary. *)
Lemma GSSA_returns_elementary_path_witness :
  GSSA id cycle_reduced nA nD [6] cycle_res_min 5 200 = Ok ([nA; nB; nD], (2, [2; 1])) ∧
  NoDup [nA; nB; nD].
Proof.
  assert (GSSA id cycle_reduced nA nD [6] cycle_res_min 5 200
          = Ok ([nA; nB; nD], (2, [2; 1]))) as H by (vm_compute; reflexivity).
  split; [exact H|].
  exact (GSSA_returns_elementary_path id cycle_reduced nA nD [6] cycle_res_min
           5%nat 200%nat [nA; nB; nD] (2, [2; 1]) H).
Defined.

Lemma cycle_bounds_nonneg : bounds_nonneg cycle_res_min.
Proof. apply (bool_decide_unpack _). vm_compute. exact I. Defined.

Lemma cycle_self_zero : self_zero cycle_res_min.
Proof. apply (bool_decide_unpack _). vm_compute. exact I. Defined.

Lemma detour_bounds_nonneg : bounds_nonneg detour_res_min.
Proof. apply (bool_decide_unpack _). vm_compute. exact I. Defined.

Lemma detour_self_zero : self_zero detour_res_min.
Proof. apply (bool_decide_unpack _). vm_compute. exact I. Defined.

(** The label that GLSA returns on the cycle instance with [S = [nB]]. *)
Lemma GLSA_labels_within_budget_witness :
  GLSA id cycle_reduced nA nD [6] cycle_res_min [nB] 200 = Ok ([nA; nB; nD], (2, [2; 1])) ∧
  within_budget cycle_reduced [6] [2; 1].
Proof.
  assert (GLSA id cycle_reduced nA nD [6] cycle_res_min [nB] 200
          = Ok ([nA; nB; nD], (2, [2; 1]))) as H by (vm_compute; reflexivity).
  split; [exact H|].
  refine (proj1 (proj2 (GLSA_labels_within_budget id cycle_reduced nA nD [6]
                          cycle_res_min [nB] _ _ cycle_bounds_nonneg))
            200%nat [nA; nB; nD] (2, [2; 1]) H).
  - reflexivity.
  - constructor; [lia|constructor].
Defined.

(** The labels that GLSA holds at the end of its run on the cycle
    instance with [S] empty (three of them at [nB] and at [nD]), and three
    labels in a chain of dominance. *)
Lemma dominance_strict_partial_order_witness :
  _is_dominated (3, [3]) (1, [1]) = true ∧
  ∃ st,
    GLSA_loop id cycle_reduced nA nD [6] cycle_res_min [] 200
      (GLSA_init cycle_reduced nA []) = Ok st ∧
    labels st !! nB = Some [(1, [1]); (-9, [3]); (-19, [5])] ∧
    ∀ v ls a b, labels st !! v = Some ls → a ∈ ls → b ∈ ls → _is_dominated a b = false.
Proof.
  pose proof (dominance_strict_partial_order cycle_reduced nA nD [6] cycle_res_min [])
    as (_ & _ & Htrans & _ & Hnd).
  split.
  - apply (Htrans (3, [3]) (2, [2]) (1, [1])); reflexivity.
  - assert (∃ st, GLSA_loop id cycle_reduced nA nD [6] cycle_res_min [] 200
                    (GLSA_init cycle_reduced nA []) = Ok st ∧
                  labels st !! nB = Some [(1, [1]); (-9, [3]); (-19, [5])])
      as (st & Hst & Hls) by (eexists; split; vm_compute; reflexivity).
    exists st. split_and!; [done..|].
    intros v ls a b. apply (Hnd cycle_bounds_nonneg cycle_self_zero).
    exact (GLSA_loop_reach id cycle_reduced nA nD [6] cycle_res_min [] 200 _ _
             (reach_init _ _ _ _ _ _) Hst).
Defined.

(** The candidate at [nB] of the detour instance. *)
Lemma strong_dominance_leaves_label_unchanged_witness :
  check_edge_resources nD [3] detour_res_min nB [3; 0] (seq 0 (n_res detour_reduced))
    = Ok true ∧
  strong_dominance detour_reduced [3] detour_res_min [nC] [3; 0] = Ok [3; 0].
Proof.
  assert (check_edge_resources nD [3] detour_res_min nB [3; 0]
            (seq 0 (n_res detour_reduced)) = Ok true) as H by (vm_compute; reflexivity).
  split; [exact H|].
  refine (proj2 (strong_dominance_leaves_label_unchanged detour_reduced nD [3]
                   detour_res_min [nC] detour_bounds_nonneg detour_self_zero
                   nB [3; 0] H) _).
  intros n ->%list_elem_of_singleton res Hres.
  destruct res as [|res]; [|vm_compute in Hres; lia].
  eexists. split; [reflexivity|]. vm_compute. eauto.
Defined.

(** On the second scenario of the specification the entry of [nB] is
    selected in the second pass of the loop; its first edge leads back to
    the source [nA]. *)
Lemma GLSA_quits_on_source_child_witness :
  GLSA_loop id reentrant_reduced nA nD [100] reentrant_res_min [] 1 reentrant_state
  = Raise SystemExit.
Proof.
  refine (proj2 (proj2 (GLSA_quits_on_source_child id reentrant_reduced nA nD [100]
                          reentrant_res_min [] nB 0%nat (mk_edge (-10) [1])))
            0%nat reentrant_state [(nC, 0%nat)] [] [(nC, mk_edge 1 [1])] _ _ _ _ _);
    vm_compute; reflexivity.
Defined.

(** The reduced graph of [chain_graph]. *)
Lemma preprocess_reduced_graph_edges_witness :
  preprocess_ESPPRC chain_graph nA nE [2] = Ok (chain_reduced, chain_res_min) ∧
  ∃ surv,
    surviving_nodes chain_graph nA nE [2] = Ok surv ∧
    (∀ u v e, get_edge_data chain_reduced u v = Some e ↔
              u ∈ surv ∧ v ∈ surv ∧ get_edge_data chain_graph u v = Some e) ∧
    (∀ n, n ∈ nodes chain_reduced ↔
          n ∈ surv ∧
          ∃ m, m ∈ surv ∧ (has_edge chain_graph n m = true ∨ has_edge chain_graph m n = true)).
Proof.
  assert (preprocess_ESPPRC chain_graph nA nE [2] = Ok (chain_reduced, chain_res_min))
    as H by (vm_compute; reflexivity).
  split; [exact H|].
  exact (preprocess_reduced_graph_edges chain_graph nA nE [2] chain_reduced chain_res_min H).
Defined.


(** * Further properties of the code *)

(** ** The final scan of GLSA *)

(** The final scan takes the first label of least cost, together with
    the path at the index of that label. *)
Lemma cheapest_spec (pt : option (list path)) (ls : list label) :
  ∀ p best bp lab,
    cheapest pt p ls best = Ok (Some (bp, lab)) →
    (best = Some (bp, lab) ∧ ∀ a, a ∈ ls → lab.1 ≤ a.1) ∨
    (∃ pl i, pt = Some pl ∧ ls !! i = Some lab ∧ pl !! (p + i)%nat = Some bp ∧
       (∀ b, best = Some b → lab.1 < b.2.1) ∧
       ∀ j a, ls !! j = Some a → lab.1 ≤ a.1 ∧ ((j < i)%nat → lab.1 < a.1)).
Proof.
  induction ls as [|x ls IH]; simpl; intros p best bp lab H.
  - inv_ok. left. split; [done|]. intros a []%elem_of_nil.
  - destruct (match best with Some b => x.1 <? b.2.1 | None => true end) eqn:Htake.
    + inv_ok. right. apply IH in H as [[[= -> ->] Hle]|(pl & i & Hpt & Hi & Hp & Hb & Hall)].
      * exists a, 0%nat. rewrite Nat.add_0_r. split_and!; try done.
        -- intros b ->. simpl in Htake. lia.
        -- intros [|j] y Hy; simpl in Hy.
           ++ simplify_eq. lia.
           ++ split; [|lia]. apply Hle. by eapply list_elem_of_lookup_2.
      * assert (lab.1 < x.1) as Hlt by (by apply (Hb (a0, x))).
        exists pl, (S i). rewrite Hpt in Ha. simplify_eq.
        replace (p + S i)%nat with (S p + i)%nat by lia. split_and!; try done.
        -- intros b ->. simpl in Htake. lia.
        -- intros [|j] y Hy; simpl in Hy.
           ++ simplify_eq. lia.
           ++ destruct (Hall j y Hy). split; [done|]. intros ?. apply H0. lia.
    + destruct best as [b|]; [|done]. apply Z.ltb_ge in Htake.
      apply IH in H as [[[= ->] Hle]|(pl & i & Hpt & Hi & Hp & Hb & Hall)].
      * left. split; [done|]. intros y [->|Hy]%elem_of_cons; [done|by apply Hle].
      * assert (lab.1 < b.2.1) as Hlt by (by apply Hb).
        right. exists pl, (S i).
        replace (p + S i)%nat with (S p + i)%nat by lia. split_and!; try done.
        intros [|j] y Hy; simpl in Hy.
        -- simplify_eq. lia.
        -- destruct (Hall j y Hy). split; [done|]. intros ?. apply H0. lia.
Qed.

Lemma GLSA_result_spec :
  ∀ set_iter G source target max_res res_min SS fuel p lab,
    GLSA set_iter G source target max_res res_min SS fuel = Ok (p, lab) →
    ∃ st ls pl i,
      GLSA_loop set_iter G source target max_res res_min SS fuel
        (GLSA_init G source SS) = Ok st ∧
      L st = [] ∧
      labels st !! target = Some ls ∧ paths st !! target = Some pl ∧
      ls !! i = Some lab ∧ pl !! i = Some p ∧
      ∀ j a, ls !! j = Some a → lab.1 ≤ a.1 ∧ ((j < i)%nat → lab.1 < a.1).
Proof.
  intros set_iter G source target max_res res_min SS fuel p lab H.
  unfold GLSA in H. inv_ok. unfold select_cheapest in H. inv_ok. subst.
  apply cheapest_spec in Ha1 as [[[=] _]|(pl & i & Hpt & Hi & Hp & _ & Hall)].
  exists a, a0, pl, i. split_and!; try done.
  clear -Ha. revert a Ha. generalize (GLSA_init G source SS).
  induction fuel as [|fuel IH]; intros st0 st Hloop; simpl in Hloop.
  - destruct (L st0) eqn:HL; [|done]. by simplify_eq.
  - destruct (L st0) eqn:HL; [by simplify_eq|]. inv_ok. by eapply IH.
Qed.

(** ** The work-set as a set *)

Lemma elem_of_set_add (x y : pending) (s : list pending) :
  x ∈ set_add y s ↔ x ∈ s ∨ x = y.
Proof.
  unfold set_add. case_bool_decide as Hy.
  - split; [by left|]. by intros [?| ->].
  - by rewrite elem_of_app, list_elem_of_singleton.
Qed.

Lemma elem_of_set_discard (x y : pending) (s : list pending) :
  x ∈ set_discard y s ↔ x ∈ s ∧ x ≠ y.
Proof. unfold set_discard. rewrite list_elem_of_filter. tauto. Qed.

Lemma elem_of_set_update (x : pending) (s t : list pending) :
  x ∈ set_update s t ↔ x ∈ s ∨ x ∈ t.
Proof.
  unfold set_update. revert s. induction t as [|y t IH]; intros s; simpl.
  - split; [by left|]. by intros [?|[]%elem_of_nil].
  - rewrite IH, elem_of_set_add, elem_of_cons. tauto.
Qed.

(** The renumbering loop takes the entries [(v, j)], [j] in [js], out of
    the work-set and collects the entries [(v, j - 1)]. *)
Lemma rename_pending_spec (v : node) (js : list nat) :
  ∀ Lc Lr L2 Lr2,
    rename_pending v js Lc Lr = (L2, Lr2) →
    (∀ x, x ∈ L2 ↔ x ∈ Lc ∧ ∀ j, j ∈ js → x ≠ (v, j)) ∧
    (∀ x, x ∈ Lr2 ↔ x ∈ Lr ∨ ∃ j, j ∈ js ∧ (v, j) ∈ Lc ∧ x = (v, (j - 1)%nat)).
Proof.
  induction js as [|i js IH]; simpl; intros Lc Lr L2 Lr2 H.
  - simplify_eq. split; intros x.
    + split; [|by intros [? _]]. intros Hx. split; [done|]. intros j []%elem_of_nil.
    + split; [by left|]. intros [?|(j & []%elem_of_nil & _)]. done.
  - case_bool_decide as Hi.
    + apply IH in H as [H2 Hr]. split; intros x.
      * rewrite H2, elem_of_set_discard. split.
        -- intros [[Hx Hne] Hjs]. split; [done|].
           intros j [->|Hj]%elem_of_cons; [done|by apply Hjs].
        -- intros [Hx Hjs]. split_and!; [done|..].
           ++ apply Hjs. by left.
           ++ intros j Hj. apply Hjs. by right.
      * rewrite Hr, elem_of_set_add. split.
        -- intros [[Hx| ->]|(j & Hj & [Hin _]%elem_of_set_discard & ->)].
           ++ by left.
           ++ right. exists i. split_and!; [by left|done..].
           ++ right. exists j. split_and!; [by right|done..].
        -- intros [Hx|(j & [->|Hj]%elem_of_cons & Hin & ->)].
           ++ by left; left.
           ++ by left; right.
           ++ destruct (decide (j = i)) as [->|Hne]; [by left; right|].
              right. exists j. split_and!; [done| |done].
              apply elem_of_set_discard. split; [done|]. congruence.
    + apply IH in H as [H2 Hr]. split; intros x.
      * rewrite H2. split.
        -- intros [Hx Hjs]. split; [done|].
           intros j [->|Hj]%elem_of_cons; [congruence|by apply Hjs].
        -- intros [Hx Hjs]. split; [done|]. intros j Hj. apply Hjs. by right.
      * rewrite Hr. split.
        -- intros [Hx|(j & Hj & Hin & ->)]; [by left|].
           right. exists j. split_and!; [by right|done..].
        -- intros [Hx|(j & [->|Hj]%elem_of_cons & Hin & ->)]; [by left|done|].
           right. by exists j.
Qed.

(** The work-set after the label at index [i0] of [v] has been popped:
    the entry of that index is gone, the entries of [v] above it have
    moved down by one, all others are as before. *)
Lemma pop_pending (v : node) (i0 n : nat) (Lc L2 Lr : list pending) :
  (∀ i, (v, i) ∈ Lc → (i < i0 + S n)%nat) →
  rename_pending v (seq (i0 + 1) n)
    (if bool_decide ((v, i0) ∈ Lc) then set_discard (v, i0) Lc else Lc) [] = (L2, Lr) →
  (∀ w i, w ≠ v → ((w, i) ∈ set_update L2 Lr ↔ (w, i) ∈ Lc)) ∧
  (∀ i, (i < i0)%nat → ((v, i) ∈ set_update L2 Lr ↔ (v, i) ∈ Lc)) ∧
  (∀ k, (v, (i0 + k)%nat) ∈ set_update L2 Lr ↔ (v, (i0 + S k)%nat) ∈ Lc).
Proof.
  intros Hbound Hren.
  set (L1 := if bool_decide ((v, i0) ∈ Lc) then set_discard (v, i0) Lc else Lc) in *.
  assert (∀ x, x ∈ L1 ↔ x ∈ Lc ∧ x ≠ (v, i0)) as H1.
  { intros x. unfold L1. case_bool_decide as Hin; [apply elem_of_set_discard|].
    split; [|by intros [? _]]. intros Hx. split; [done|]. by intros ->. }
  apply rename_pending_spec in Hren as [H2 Hr].
  assert (∀ x, x ∈ set_update L2 Lr ↔
               (x ∈ Lc ∧ x ≠ (v, i0) ∧ ∀ j, j ∈ seq (i0 + 1) n → x ≠ (v, j)) ∨
               (∃ j, j ∈ seq (i0 + 1) n ∧ (v, j) ∈ Lc ∧ x = (v, (j - 1)%nat))) as Hmem.
  { intros x. rewrite elem_of_set_update, H2, Hr, H1. split.
    - intros [[[? ?] ?]|[[]%elem_of_nil|(j & Hj & [Hin _]%H1 & ->)]]; [by left|].
      right. by exists j.
    - intros [(? & ? & ?)|(j & Hj & Hin & ->)]; [by left|].
      right. right. exists j. split_and!; [done| |done].
      apply H1. split; [done|]. apply elem_of_seq in Hj. intros [= ?]. lia. }
  split_and!.
  - intros w i Hw. rewrite Hmem. split.
    + intros [(? & _)|(j & _ & _ & [= ? _])]; done.
    + intros Hin. left. split_and!; [done|congruence|]. intros j _. congruence.
  - intros i Hi. rewrite Hmem. split.
    + intros [(? & _)|(j & Hj%elem_of_seq & _ & [= ?])]; [done|lia].
    + intros Hin. left. split_and!; [done|intros [= ?]; lia|].
      intros j Hj%elem_of_seq [= ?]. lia.
  - intros k. rewrite Hmem. split.
    + intros [(Hin & Hne & Hjs)|(j & Hj%elem_of_seq & Hin & [= Hk])].
      * exfalso. pose proof (Hbound _ Hin) as Hb.
        destruct k as [|k]; [apply Hne; f_equal; lia|].
        apply (Hjs (i0 + S k)%nat); [|done]. apply elem_of_seq. lia.
      * replace (i0 + S k)%nat with j by lia. done.
    + intros Hin. right. exists (i0 + S k)%nat. pose proof (Hbound _ Hin) as Hb.
      split_and!; [apply elem_of_seq; lia|done|f_equal; lia].
Qed.

(** ** The loop that removes the dominated labels *)

(** The labels that are kept are the ones that the new label does not
    dominate, in their order. *)
Lemma remove_dominated_labels (v : node) (v_label : label) (labs : list label) :
  ∀ i pths Lc ls ps L',
    remove_dominated v v_label i labs pths Lc = Ok (ls, ps, L') →
    ls = filter (λ a, _is_dominated a v_label = false) labs.
Proof.
  induction labs as [|lab labs IH]; simpl; intros i pths Lc ls ps L' H.
  - by inv_ok; simplify_eq.
  - destruct (_is_dominated lab v_label) eqn:Hd.
    + destruct pths as [|p pths]; [done|].
      destruct (rename_pending _ _ _ _) as [L2 L_rename].
      rewrite filter_cons_False by congruence. by eapply IH.
    + inv_ok. destruct a as [[ls0 ps0] L0]. inv_ok. simplify_eq.
      rewrite filter_cons_True by done. f_equal. by eapply IH.
Qed.

(** On parallel lists the loop raises nothing, and the paths are kept
    with their labels. *)
Lemma remove_dominated_parallel (v : node) (v_label : label) (labs : list label) :
  ∀ i pths Lc,
    length pths = length labs →
    ∃ ls ps L',
      remove_dominated v v_label i labs pths Lc = Ok (ls, ps, L') ∧
      zip ls ps = filter (λ x, _is_dominated x.1 v_label = false) (zip labs pths) ∧
      length ps = length ls.
Proof.
  induction labs as [|lab labs IH]; simpl; intros i [|p pths] Lc Hlen; try done.
  - by exists [], [], Lc.
  - destruct (_is_dominated lab v_label) eqn:Hd.
    + destruct (rename_pending _ _ _ _) as [L2 L_rename].
      destruct (IH i pths (set_update L2 L_rename)) as (ls & ps & L' & -> & Hzip & Hl);
        [by simplify_eq/=|].
      exists ls, ps, L'. split_and!; [done| |done].
      rewrite filter_cons_False by (simpl; congruence). done.
    + destruct (IH (i + 1)%nat pths Lc) as (ls & ps & L' & Heq & Hzip & Hl);
        [by simplify_eq/=|].
      simpl. rewrite Heq.
      exists (lab :: ls), (p :: ps), L'. split_and!; [done| |simpl; by f_equal].
      rewrite filter_cons_True by done. simpl. by f_equal.
Qed.

(** [kept_index] is the index in the list of the kept labels. *)
Lemma kept_index_Some (v_label : label) (labs : list label) :
  ∀ j k,
    kept_index v_label labs j = Some k ↔
    ∃ a, labs !! j = Some a ∧ _is_dominated a v_label = false ∧
         k = length (filter (λ a, _is_dominated a v_label = false) (take j labs)).
Proof.
  induction labs as [|lab labs IH]; intros j k.
  - simpl. split; [done|]. by intros (a & Ha & _); destruct j.
  - destruct j as [|j]; simpl.
    + destruct (_is_dominated lab v_label) eqn:Hd.
      * split; [done|]. intros (a & [= <-] & ? & _). congruence.
      * split.
        -- intros [= <-]. by exists lab.
        -- by intros (a & [= <-] & _ & ->).
    + destruct (_is_dominated lab v_label) eqn:Hd.
      * rewrite IH, filter_cons_False by congruence. done.
      * rewrite filter_cons_True by done. simpl. split.
        -- destruct (kept_index v_label labs j) as [k'|] eqn:Hk; [|done].
           intros [= <-]. apply IH in Hk as (a & ? & ? & ->). by exists a.
        -- intros (a & Ha & Hnd & ->).
           pose proof (proj2 (IH j _) (ex_intro _ a (conj Ha (conj Hnd eq_refl)))) as Hk.
           by rewrite Hk.
Qed.

Lemma kept_index_lookup (v_label : label) (labs : list label) (j k : nat) :
  kept_index v_label labs j = Some k →
  filter (λ a, _is_dominated a v_label = false) labs !! k = labs !! j.
Proof.
  revert j k. induction labs as [|lab labs IH]; intros j k; [done|].
  destruct j as [|j]; simpl.
  - destruct (_is_dominated lab v_label) eqn:Hd; [done|]. intros [= <-].
    by rewrite filter_cons_True.
  - destruct (_is_dominated lab v_label) eqn:Hd.
    + rewrite filter_cons_False by congruence. apply IH.
    + rewrite filter_cons_True by done.
      destruct (kept_index v_label labs j) as [k'|] eqn:Hk; [|done].
      intros [= <-]. simpl. by apply IH.
Qed.

(** The entries of the work-set after the loop, started at the index
    [i0] with the labels [labs] from that index on. *)
Lemma remove_dominated_pending (v : node) (v_label : label) (labs : list label) :
  ∀ i0 pths Lc ls ps L',
    remove_dominated v v_label i0 labs pths Lc = Ok (ls, ps, L') →
    (∀ i, (v, i) ∈ Lc → (i < i0 + length labs)%nat) →
    (∀ w i, w ≠ v → ((w, i) ∈ L' ↔ (w, i) ∈ Lc)) ∧
    (∀ i, (i < i0)%nat → ((v, i) ∈ L' ↔ (v, i) ∈ Lc)) ∧
    (∀ k, (v, (i0 + k)%nat) ∈ L' ↔
          ∃ j, (v, (i0 + j)%nat) ∈ Lc ∧ kept_index v_label labs j = Some k).
Proof.
  induction labs as [|lab labs IH]; simpl; intros i0 pths Lc ls ps L' H Hbound.
  - inv_ok. simplify_eq. split_and!; [done..|]. intros k. split.
    + intros Hin%Hbound. lia.
    + by intros (j & _ & ?).
  - destruct (_is_dominated lab v_label) eqn:Hd.
    + destruct pths as [|p pths]; [done|].
      destruct (rename_pending _ _ _ _) as [L2 L_rename] eqn:Hren.
      apply pop_pending in Hren as (Hw & Hlow & Hup);
        [|intros i Hi%Hbound; lia].
      apply IH in H as (Hw' & Hlow' & Hup').
      2:{ intros i Hi. destruct (decide (i < i0)%nat) as [?|Hge]; [lia|].
          replace i with (i0 + (i - i0))%nat in Hi by lia.
          apply Hup, Hbound in Hi. lia. }
      split_and!.
      * intros w i Hne. by rewrite Hw', Hw.
      * intros i Hi. by rewrite Hlow', Hlow.
      * intros k. rewrite Hup'. split.
        -- intros (j & Hj%Hup & Hk). by exists (S j).
        -- intros ([|j] & Hj & Hk); [done|]. exists j. by rewrite Hup.
    + inv_ok. destruct a as [[ls0 ps0] L0]. inv_ok. simplify_eq.
      apply IH in Ha as (Hw' & Hlow' & Hup'); [|intros i Hi%Hbound; lia].
      split_and!; [done|intros i Hi; apply Hlow'; lia|].
      intros [|k].
      * rewrite Nat.add_0_r, Hlow' by lia. split.
        -- intros Hin. exists 0%nat. by rewrite Nat.add_0_r.
        -- intros ([|j] & Hj & Hk); [by rewrite Nat.add_0_r in Hj|].
           by destruct (kept_index v_label labs j).
      * replace (i0 + S k)%nat with (i0 + 1 + k)%nat by lia. rewrite Hup'. split.
        -- intros (j & Hj & Hk). exists (S j).
           replace (i0 + S j)%nat with (i0 + 1 + j)%nat by lia. by rewrite Hk.
        -- intros ([|j] & Hj & Hk); [done|]. exists j.
           replace (i0 + 1 + j)%nat with (i0 + S j)%nat by lia. split; [done|].
           by destruct (kept_index v_label labs j); simplify_eq/=.
Qed.

Lemma remove_dominated_renumber_spec :
  ∀ v v_label labs pths Lc ls ps L',
    remove_dominated v v_label 0 labs pths Lc = Ok (ls, ps, L') →
    (∀ i, (v, i) ∈ Lc → (i < length labs)%nat) →
    ls = filter (λ a, _is_dominated a v_label = false) labs ∧
    (∀ w i, w ≠ v → ((w, i) ∈ L' ↔ (w, i) ∈ Lc)) ∧
    (∀ k, (v, k) ∈ L' ↔
          ∃ j a, (v, j) ∈ Lc ∧ labs !! j = Some a ∧
                 _is_dominated a v_label = false ∧
                 k = length (filter (λ a, _is_dominated a v_label = false) (take j labs)) ∧
                 ls !! k = Some a).
Proof.
  intros v v_label labs pths Lc ls ps L' H Hbound.
  pose proof (remove_dominated_labels _ _ _ _ _ _ _ _ _ H) as Hls.
  apply remove_dominated_pending in H as (Hw & _ & Hup); [|done].
  split_and!; [done..|]. intros k. rewrite (Hup k). split.
  - intros (j & Hj & Hk). pose proof (kept_index_lookup _ _ _ _ Hk) as Hlook.
    apply kept_index_Some in Hk as (a & Ha & Hnd & ->).
    exists j, a. rewrite Hls, Hlook. done.
  - intros (j & a & Hj & Ha & Hnd & -> & _). exists j. split; [done|].
    apply kept_index_Some. by exists a.
Qed.

(** ** The treatment of an edge, in full *)

Section Extension.

Variable set_iter : list pending → list pending.
Variable G : DiGraph.
Variables source target : node.
Variable max_res : list Z.
Variable res_min : list (gmap node (gmap node Z)).
Variable SS : list node.

Local Abbreviation extend := (extend_label G source target max_res res_min SS).
Local Abbreviation reach := (GLSA_reach G source target max_res res_min SS).

(** All that the treatment of an edge has read and computed when it
    returns: the edge does not lead to the source, and either the state is
    as before or one label and one path have been stored at [v]. *)
Lemma extend_label_cases (u : node) (l : nat) (st st' : GLSA_state)
    (v : node) (e : edge_data) :
  extend u l st (v, e) = Ok st' →
  v ≠ source ∧
  (st' = st ∨
   ∃ parent parent_path el r ls ps L' lu pu pv,
     labels st !! u = Some lu ∧ lu !! l = Some parent ∧
     paths st !! u = Some pu ∧ pu !! l = Some parent_path ∧
     e_loc G SS v e = Ok el ∧
     check_node_resources G (zip_with Z.add parent.2 el) (seq 0 (length SS)) = Ok true ∧
     strong_dominance G max_res res_min SS (zip_with Z.add parent.2 el) = Ok r ∧
     match labels st !! v with
     | None => pv = []
     | Some _ => paths st !! v = Some pv
     end ∧
     remove_dominated v (parent.1 + weight e, r) 0
       (default [] (labels st !! v)) pv (L st) = Ok (ls, ps, L') ∧
     st' = mk_state (<[v := ps ++ [parent_path ++ [v]]]> (paths st))
                    (<[v := ls ++ [(parent.1 + weight e, r)]]> (labels st))
                    (set_add (v, length ls) L')).
Proof.
  unfold extend_label. intros H.
  case_bool_decide as Hv; [done|]. split; [done|].
  inv_ok. simpl in *.
  destruct a2 as [|]; simpl in H; [|inv_ok; by left].
  destruct a3 as [|]; simpl in H; [|inv_ok; by left].
  destruct (existsb _ _) eqn:Hex; [inv_ok; by left|].
  inv_ok. destruct a6 as [[ls ps] L']. inv_ok. right.
  do 10 eexists. split_and!; try eassumption; [|by subst].
  destruct (labels st !! v); by inv_ok.
Qed.

(** ** The entries of the work-set *)

Lemma reach_valid_pending (st : GLSA_state) : reach st → valid_pending st.
Proof.
  intros Hreach.
  induction Hreach as [|st u_label L' _ IH Hrem|st u l [v e] st' _ IH Hext];
    intros w i Hin.
  - simpl in Hin. apply list_elem_of_singleton in Hin as [= -> ->].
    eexists. split; [apply lookup_singleton_eq|]. simpl. lia.
  - simpl in *. unfold set_remove in Hrem. case_bool_decide; [|done].
    inv_ok. subst. apply elem_of_set_discard in Hin as [Hin _]. by apply IH.
  - apply extend_label_cases in Hext
      as [_ [->|(parent & pp & el & r & ls & ps & L' & lu & pu & pv &
                 _ & _ & _ & _ & _ & _ & _ & _ & Hrd & ->)]];
      [by apply IH|].
    simpl in *. apply remove_dominated_renumber_spec in Hrd as (Hls & Hother & Hv).
    2:{ intros k Hk. destruct (IH _ _ Hk) as (ls0 & -> & ?). done. }
    apply elem_of_set_add in Hin as [Hin|[= -> ->]].
    + destruct (decide (w = v)) as [->|Hne].
      * rewrite lookup_insert_eq. eexists. split; [done|].
        apply Hv in Hin as (j & a & _ & _ & _ & _ & Hk).
        apply lookup_lt_Some in Hk. rewrite length_app. lia.
      * rewrite lookup_insert_ne by done. apply IH. by apply Hother.
    + rewrite lookup_insert_eq. eexists. split; [done|].
      rewrite length_app. simpl. lia.
Qed.

(** ** The selection never fails *)

Lemma LML_pass_total (lbls : gmap node (list label)) (res : nat) (prev : list pending) :
  (∀ lab, lab ∈ prev → ∃ x, res_loc lbls lab res = Ok x) →
  ∀ m acc,
    ∃ l, LML_pass lbls res prev m acc = Ok l ∧
         (∀ x, x ∈ l → x ∈ acc ∨ x ∈ prev) ∧
         (l = [] → acc = [] ∧ (prev = [] ∨ m ≠ None)).
Proof.
  induction prev as [|lab prev IH]; simpl; intros Hok m acc.
  - exists acc. split_and!; [done|by left|]. intros ->. by split; [|left].
  - destruct (Hok lab) as [x Hx]; [by left|]. rewrite Hx. simpl.
    destruct (match m with Some m0 => x <=? m0 | None => true end) eqn:Htake.
    + destruct (IH (λ y Hy, Hok y (list_elem_of_further _ _ _ Hy)) (Some x) (acc ++ [lab]))
        as (l & -> & Hsub & Hnil).
      exists l. split_and!; [done| |].
      * intros y [[Hy| ->%list_elem_of_singleton]%elem_of_app|Hy]%Hsub;
          [by left|right; by left|right; by right].
      * intros [Hacc _]%Hnil. by destruct acc.
    + destruct m as [m|]; [|done].
      destruct (IH (λ y Hy, Hok y (list_elem_of_further _ _ _ Hy)) (Some m) acc)
        as (l & -> & Hsub & Hnil).
      exists l. split_and!; [done| |].
      * intros y [Hy|Hy]%Hsub; [by left|right; by right].
      * intros [Hacc _]%Hnil. split; [done|by right].
Qed.

Lemma LML_loop_total (lbls : gmap node (list label)) (rs : list nat) :
  ∀ prev o,
    prev ≠ [] →
    (∀ lab res, lab ∈ prev → res ∈ rs → ∃ x, res_loc lbls lab res = Ok x) →
    ∃ r, LML_loop lbls rs prev o = Ok r ∧
         (rs ≠ [] → ∃ u, r = Some u ∧ u ∈ prev).
Proof.
  induction rs as [|res rs IH]; simpl; intros prev o Hne Hok.
  - by exists o.
  - destruct (LML_pass_total lbls res prev (λ lab Hl, Hok lab res Hl (list_elem_of_here _ _))
                None []) as (l & -> & Hsub & Hnil).
    simpl. destruct l as [|x [|y l]].
    + destruct Hnil as [_ [?|?]]; done.
    + exists (Some x). split; [done|]. intros _. exists x. split; [done|].
      destruct (Hsub x) as [[]%elem_of_nil|?]; [by left|done].
    + destruct (IH (x :: y :: l) (Some x)) as (r & Hr & Hsome); [done| |].
      { intros lab res' [[]%elem_of_nil|Hl]%Hsub Hres. apply Hok; [done|by right]. }
      exists r. split; [done|]. intros _.
      destruct rs as [|res' rs].
      * simpl in Hr. inv_ok. subst. exists x. split; [done|].
        destruct (Hsub x) as [[]%elem_of_nil|?]; [by left|done].
      * destruct Hsome as (u & -> & Hu); [done|]. exists u. split; [done|].
        destruct (Hsub u Hu) as [[]%elem_of_nil|?]. done.
Qed.

(** X4: in every state of an invocation the entries of the work-set are
    indices of labels; so, when there is at least one resource, the
    selection raises nothing on a work-set that is not empty: it returns
    the first entry in the iteration order, which [L.remove] then takes
    out. *)
Theorem select_label_total :
  ∀ st,
    reach st →
    (∀ x, x ∈ set_iter (L st) ↔ x ∈ L st) → L st ≠ [] →
    (0 < n_res G + length SS)%nat →
    valid_pending st ∧
    ∃ u L',
      select_label set_iter G SS st = Ok u ∧
      head (set_iter (L st)) = Some u ∧
      set_remove u (L st) = Ok L' ∧
      ∀ x, x ∈ L' ↔ x ∈ L st ∧ x ≠ u.
Proof.
  intros st Hreach Hiter Hne Hdim.
  pose proof (reach_valid_pending st Hreach) as Hvalid. split; [done|].
  destruct (LML_loop_total (labels st) (seq 0 (n_res G + length SS))
              (set_iter (L st)) None) as (r & Hr & Hsome).
  { destruct (L st) as [|x Lst] eqn:HL; [done|]. intros Hnil.
    assert (x ∈ set_iter (x :: Lst)) as Hx by (apply Hiter; by left).
    rewrite Hnil in Hx. by apply elem_of_nil in Hx. }
  { intros [w i] res Hin%Hiter Hres%elem_of_seq.
    destruct (Hvalid w i Hin) as (ls & Hls & Hi).
    destruct (lookup_lt_is_Some_2 ls i Hi) as [x Hx].
    pose proof (reach_length G source target max_res res_min SS st Hreach w ls x Hls
                  (list_elem_of_lookup_2 _ _ _ Hx)) as Hlen.
    destruct (lookup_lt_is_Some_2 x.2 res) as [y Hy]; [lia|].
    exists y. unfold res_loc. cbn [fst snd]. rewrite Hls. cbn [require]. rewrite bind_Ok_l.
    unfold label in *. rewrite Hx. cbn [require]. by rewrite bind_Ok_l, Hy. }
  destruct Hsome as (u & -> & Hu).
  { destruct (n_res G + length SS)%nat; [lia|done]. }
  assert (select_label set_iter G SS st = Ok u) as Hsel.
  { unfold select_label. by rewrite Hr. }
  exists u, (set_discard u (L st)). split_and!; [done| | |].
  - by apply select_label_head in Hsel.
  - unfold set_remove. rewrite bool_decide_eq_true_2; [done|]. by apply Hiter.
  - intros x. apply elem_of_set_discard.
Qed.

End Extension.

(** ** What the labels record *)

Lemma index_of_lookup (n : node) (SS : list node) :
  n ∈ SS → SS !! index_of n SS = Some n.
Proof.
  induction SS as [|m SS IH]; simpl; [by intros []%elem_of_nil|].
  case_bool_decide as Hm; [by subst|].
  intros [->|Hn]%elem_of_cons; [done|]. by apply IH.
Qed.

Lemma index_of_inj (n m : node) (SS : list node) :
  n ∈ SS → m ∈ SS → index_of n SS = index_of m SS → n = m.
Proof.
  intros Hn%index_of_lookup Hm%index_of_lookup Heq. rewrite Heq in Hn. congruence.
Qed.

Section Records_properties.

Variable set_iter : list pending → list pending.
Variable G : DiGraph.
Variables source target : node.
Variable max_res : list Z.
Variable res_min : list (gmap node (gmap node Z)).
Variable SS : list node.

Local Abbreviation extend := (extend_label G source target max_res res_min SS).
Local Abbreviation sd := (strong_dominance G max_res res_min SS).

Lemma check_node_true (r : list Z) (rs : list nat) :
  check_node_resources G r rs = Ok true →
  ∀ i, i ∈ rs → ∃ x, r !! (n_res G + i)%nat = Some x ∧ x ≤ 1.
Proof.
  induction rs as [|i0 rs IH]; simpl; intros H i Hi.
  - by apply elem_of_nil in Hi.
  - inv_ok. destruct (Z.gtb_spec a 1); [done|].
    apply elem_of_cons in Hi as [->|Hi]; [by exists a|by apply IH].
Qed.

(** The strong dominance loops change an entry only from 0 to 1. *)
Lemma sd_entries (r r' : list Z) :
  sd r = Ok r' →
  ∀ j x, r !! j = Some x → ∃ x', r' !! j = Some x' ∧ (x' = x ∨ (x = 0 ∧ x' = 1)).
Proof.
  set (P := λ r0 : list Z,
         ∀ j x, r !! j = Some x → ∃ x', r0 !! j = Some x' ∧ (x' = x ∨ (x = 0 ∧ x' = 1))).
  unfold strong_dominance. intros H.
  refine (foldM_invariant P _ SS _ r r' _ H); [|intros j x ?; by exists x; split; [|left]].
  intros a n a' Ha Hin.
  refine (foldM_invariant P _ _ _ a a' Ha Hin).
  intros b res b' Hb Hstep j x Hj. destruct (Hb j x Hj) as (x1 & Hx1 & Hcase).
  unfold strong_dominance_step in Hstep. inv_ok.
  destruct (_ >? _); [|inv_ok; subst; by exists x1].
  inv_ok. destruct (Z.eqb_spec a4 0) as [->|Hne]; inv_ok; subst; [|by exists x1].
  destruct (decide (j = n_res G + index_of n SS)%nat) as [->|Hj'].
  - exists 1. rewrite list_lookup_insert_eq by (by eapply lookup_lt_Some).
    split; [done|]. assert (x1 = 0) as -> by congruence.
    destruct Hcase as [->|[-> ?]]; [by right|lia].
  - exists x1. by rewrite list_lookup_insert_ne.
Qed.

Lemma sd_take (r r' : list Z) :
  sd r = Ok r' → length r' = length r ∧ take (n_res G) r' = take (n_res G) r.
Proof.
  intros [Hlen Hlook]%sd_frame. split; [done|].
  apply list_eq. intros i. destruct (decide (i < n_res G)%nat) as [Hi|Hi].
  - rewrite !lookup_take_lt by done. by apply Hlook.
  - rewrite !lookup_take_ge by lia. done.
Qed.

(** The vector that an edge adds to a label: the resource costs of the
    edge, and 1 for the head of the edge when it is in [S]. *)
Lemma e_loc_inv (v : node) (e : edge_data) (el : list Z) :
  e_loc G SS v e = Ok el →
  ∃ phys, set_slice G (res_cost e) = Ok phys ∧ take (n_res G) el = phys ∧
    ∀ n, n ∈ SS →
      el !! (n_res G + index_of n SS)%nat = Some (if decide (n = v) then 1 else 0).
Proof.
  intros H. pose proof (e_loc_length _ _ _ _ _ H) as Hlen.
  unfold e_loc in H. inv_ok. cbv zeta in H. exists a.
  assert (length a = n_res G) as Hla.
  { unfold set_slice in Ha.
    destruct (bool_decide (length (res_cost e) = n_res G)) eqn:E1.
    - apply bool_decide_eq_true in E1. by inv_ok; subst.
    - destruct (bool_decide (length (res_cost e) = 1%nat)); inv_ok.
      subst. by rewrite length_replicate. }
  split; [done|]. split.
  - subst el. destruct (bool_decide (v ∈ SS)).
    + rewrite take_insert_ge by lia. by apply take_app_length'.
    + by apply take_app_length'.
  - intros n Hn. pose proof (index_of_lookup n SS Hn) as Hidx.
    apply lookup_lt_Some in Hidx as Hlt. subst el.
    assert ((a ++ replicate (length SS) 0) !! (n_res G + index_of n SS)%nat = Some 0)
      as Hzero.
    { rewrite lookup_app_r by lia.
      replace (n_res G + index_of n SS - length a)%nat with (index_of n SS) by lia.
      by apply lookup_replicate_2. }
    case_bool_decide as Hv.
    + case_decide as Hnv.
      * subst v. apply list_lookup_insert_eq. by eapply lookup_lt_Some.
      * rewrite list_lookup_insert_ne; [done|].
        intros Heq. apply Hnv. symmetry. apply (index_of_inj _ _ SS); [done..|lia].
    + case_decide as Hnv; [by subst|done].
Qed.

Lemma walk_head (p : path) (c : Z) (r : list Z) :
  walk G source p c r → ∃ p', p = source :: p' ∧ source ∉ p'.
Proof.
  induction 1 as [|p c r u v e phys _ (p' & -> & Hp') _ _ _ Hv _].
  - exists []. split; [done|]. apply not_elem_of_nil.
  - exists (p' ++ [v]). split; [done|].
    rewrite elem_of_app, list_elem_of_singleton. intros [?|?]; congruence.
Qed.

(** The treatment of an edge of [G] keeps the lists parallel. *)
Lemma extend_label_parallel (u : node) (l : nat) (st st' : GLSA_state)
    (v : node) (e : edge_data) :
  parallel G source SS st → u ∈ nodes G → (u, v, e) ∈ adj G →
  extend u l st (v, e) = Ok st' → parallel G source SS st'.
Proof.
  intros Hpar Hu He Hext.
  apply extend_label_cases in Hext
    as [Hv [->|(parent & pp & el & r & ls & ps & L' & lu & pu & pv &
                Hlu & Hpar_l & Hpu & Hpp & Hel & Hnode & Hsd & Hpv & Hrd & ->)]];
    [done|].
  assert (last pp = Some u ∧ tracks G source SS parent pp) as [Hlast Htr].
  { by apply (Forall2_lookup_lr _ _ _ l _ _ (Hpar u lu pu Hlu Hpu)). }
  destruct Htr as (Hplen & Hwalk & Hind).
  destruct (e_loc_inv _ _ _ Hel) as (phys & Hphys & Htake & Hel_ind).
  pose proof (e_loc_length _ _ _ _ _ Hel) as Hel_len.
  destruct (sd_take _ _ Hsd) as [Hrlen Hrtake].
  assert (tracks G source SS (parent.1 + weight e, r) (pp ++ [v])) as Hnew.
  { split_and!; simpl.
    - rewrite Hrlen, length_zip_with. lia.
    - rewrite Hrtake, zip_with_take, Htake.
      by eapply walk_step.
    - intros n Hn. destruct (Hind n Hn) as (x0 & Hx0 & Hcount & _).
      pose proof (Hel_ind n Hn) as Hd.
      assert (zip_with Z.add parent.2 el !! (n_res G + index_of n SS)%nat
              = Some (x0 + if decide (n = v) then 1 else 0)) as Hsum.
      { rewrite lookup_zip_with, Hx0. simpl. by rewrite Hd. }
      destruct (check_node_true _ _ Hnode (index_of n SS)) as (x1 & Hx1 & Hle1).
      { apply elem_of_seq. apply index_of_lookup, lookup_lt_Some in Hn. lia. }
      destruct (sd_entries _ _ Hsd _ _ Hsum) as (x' & Hx' & Hcase).
      exists x'. split; [done|].
      destruct (walk_head _ _ _ Hwalk) as (p' & -> & _). simpl.
      rewrite count_occ_app. simpl.
      rewrite Hsum in Hx1. simpl in Hcount.
      destruct (Nat.eq_dec v n) as [->|Hne].
      + rewrite decide_True in Hsum, Hx1, Hcase by done.
        simplify_eq. unfold node in *. destruct Hcase as [->|[? ->]]; lia.
      + rewrite decide_False in Hsum, Hx1, Hcase by congruence.
        simplify_eq. unfold node in *. destruct Hcase as [->|[? ->]]; lia. }
  intros w lw pw Hlw Hpw. simpl in *.
  rewrite lookup_insert in Hlw. rewrite lookup_insert in Hpw.
  case_decide as Hw; [|by apply Hpar]. simplify_eq.
  apply Forall2_app; [|constructor; [|constructor]; split; [apply last_snoc|done]].
  assert (Forall2 (λ lab p, last p = Some w ∧ tracks G source SS lab p)
            (default [] (labels st !! w)) pv) as Hold.
  { destruct (labels st !! w) as [lw|] eqn:Hlw; simpl; [by apply Hpar|]. by subst. }
  clear -Hold Hrd. revert Hrd Hold. generalize (L st). generalize 0%nat.
  generalize (default [] (labels st !! w)). intros labs. revert pv ls ps L'.
  induction labs as [|lab labs IH]; simpl; intros pv ls ps L' i Lc Hrd Hold.
  - inv_ok. simplify_eq. by apply Forall2_nil_inv_l in Hold as ->.
  - apply Forall2_cons_inv_l in Hold as (p & pv' & Hp & Hold & ->).
    destruct (_is_dominated lab _).
    + destruct (rename_pending _ _ _ _). by eapply IH.
    + inv_ok. destruct a as [[ls0 ps0] L0]. inv_ok. simplify_eq. simpl.
      constructor; [done|]. by eapply IH.
Qed.

End Records_properties.

(** ** The lists of paths and labels along the loop *)

Section Loop_records.

Variable set_iter : list pending → list pending.
Variable G : DiGraph.
Variables source target : node.
Variable max_res : list Z.
Variable res_min : list (gmap node (gmap node Z)).
Variable SS : list node.

Lemma GLSA_init_parallel : parallel G source SS (GLSA_init G source SS).
Proof.
  intros v ls ps Hls Hps. simpl in *.
  apply lookup_singleton_Some in Hls as [<- <-].
  apply lookup_singleton_Some in Hps as [_ <-].
  constructor; [|constructor]. split; [done|]. split_and!; simpl.
  - by rewrite length_replicate.
  - rewrite take_replicate, Nat.min_l by lia. constructor.
  - intros n Hn. exists 0. split; [|simpl; lia].
    apply lookup_replicate_2. apply index_of_lookup, lookup_lt_Some in Hn. lia.
Qed.

Lemma succ_node (u : node) es : succ G u = Ok es → u ∈ nodes G.
Proof. unfold succ. by case_bool_decide. Qed.

Lemma GLSA_iter_parallel (st st' : GLSA_state) :
  parallel G source SS st →
  GLSA_iter set_iter G source target max_res res_min SS st = Ok st' →
  parallel G source SS st'.
Proof.
  unfold GLSA_iter. intros Hst H. inv_ok.
  refine (foldM_invariant_elem (parallel G source SS) _ _ _ _ _ _ H); [|done].
  intros s [v e] s' Hin Hs Hext.
  eapply extend_label_parallel; [done| | |done].
  - by eapply succ_node.
  - by eapply elem_of_succ.
Qed.

Lemma GLSA_loop_parallel (fuel : nat) :
  ∀ st st',
    parallel G source SS st →
    GLSA_loop set_iter G source target max_res res_min SS fuel st = Ok st' →
    parallel G source SS st'.
Proof.
  induction fuel as [|fuel IH]; intros st st' Hst H; simpl in H.
  - destruct (L st); [|done]. by simplify_eq.
  - destruct (L st); [by simplify_eq|].
    inv_ok. eapply IH; [|done]. by eapply GLSA_iter_parallel.
Qed.

(** What GLSA returns is a path to [target] with the label that records
    it. *)
Lemma GLSA_result_tracks (fuel : nat) (p : path) (lab : label) :
  GLSA set_iter G source target max_res res_min SS fuel = Ok (p, lab) →
  last p = Some target ∧ tracks G source SS lab p.
Proof.
  intros H. apply GLSA_result_spec in H
    as (st & ls & pl & i & Hloop & _ & Hls & Hpl & Hi & Hp & _).
  apply GLSA_loop_parallel in Hloop; [|apply GLSA_init_parallel].
  by apply (Forall2_lookup_lr _ _ _ i _ _ (Hloop target ls pl Hls Hpl)).
Qed.

Lemma tracks_visits (lab : label) (p : path) :
  tracks G source SS lab p →
  count_occ Nat.eq_dec p source = 1%nat ∧
  ∀ n, n ∈ SS → (count_occ Nat.eq_dec p n ≤ 1)%nat.
Proof.
  intros (_ & Hwalk & Hind).
  destruct (walk_head _ _ _ _ _ Hwalk) as (p' & -> & Hp').
  assert (count_occ Nat.eq_dec (source :: p') source = 1%nat) as Hsrc.
  { simpl. destruct (Nat.eq_dec source source); [|done].
    rewrite (proj1 (count_occ_not_In Nat.eq_dec p' source)); [done|].
    by rewrite <- list_elem_of_In. }
  split; [done|]. intros n Hn.
  destruct (decide (n = source)) as [->|Hne]; [by rewrite Hsrc|].
  destruct (Hind n Hn) as (x & _ & Hcount & Hle). simpl in *.
  destruct (Nat.eq_dec source n); [congruence|]. unfold node in *. lia.
Qed.

(** X5: the path that GLSA returns starts at [source], ends at
    [target] and follows edges of the graph, from nodes of the graph, that
    never lead back to [source]; the cost of the returned label is the sum
    of the weights of these edges and its first [n_res] entries are the
    sums of their resource costs. *)
Theorem GLSA_returns_walk_with_its_label :
  ∀ fuel p lab,
    GLSA set_iter G source target max_res res_min SS fuel = Ok (p, lab) →
    head p = Some source ∧ last p = Some target ∧
    length lab.2 = (n_res G + length SS)%nat ∧
    walk G source p lab.1 (take (n_res G) lab.2).
Proof.
  intros fuel p lab [Hlast (Hlen & Hwalk & _)]%GLSA_result_tracks.
  destruct (walk_head _ _ _ _ _ Hwalk) as (p' & -> & _). done.
Qed.

(** X6: the path that GLSA returns visits [source] once and every node
    of [S] at most once. *)
Theorem GLSA_path_visits_S_once :
  ∀ fuel p lab,
    GLSA set_iter G source target max_res res_min SS fuel = Ok (p, lab) →
    count_occ Nat.eq_dec p source = 1%nat ∧
    ∀ n, n ∈ SS → (count_occ Nat.eq_dec p n ≤ 1)%nat.
Proof.
  intros fuel p lab [_ Htr]%GLSA_result_tracks. by eapply tracks_visits.
Qed.

(** X7: without any resource, that is with [n_res = 0] and [S] empty,
    GLSA raises [UnboundLocalError] in the first pass of its loop: the
    loop over the resources does not run and [u_label] is not bound when
    [L.remove(u_label)] reads it. *)
Theorem GLSA_without_resources_raises :
  ∀ fuel,
    n_res G = 0%nat →
    GLSA set_iter G source target max_res res_min [] (S fuel)
    = Raise UnboundLocalError.
Proof.
  intros fuel Hn. unfold GLSA. simpl. unfold GLSA_iter, select_label. simpl.
  by rewrite Hn.
Qed.

End Loop_records.

(** ** The passes of GSSA *)

Lemma py_max_ones (xs : list nat) :
  xs ≠ [] → (∀ x, x ∈ xs → x = 1%nat) → py_max xs = Ok 1%nat.
Proof.
  destruct xs as [|x xs]; [done|]. intros _ Hall. simpl.
  rewrite (Hall x) by (by left). f_equal.
  assert (∀ y, y ∈ xs → y = 1%nat) as Hxs by (intros y Hy; apply Hall; by right).
  clear Hall. induction xs as [|y xs IH]; simpl; [done|].
  rewrite (Hxs y) by (by left). simpl. apply IH. intros z Hz. apply Hxs. by right.
Qed.

Lemma elem_of_count_elems (p : path) (n : node) (c : nat) :
  (n, c) ∈ count_elems p ↔ n ∈ p ∧ c = count_occ Nat.eq_dec p n.
Proof.
  unfold count_elems. rewrite list_elem_of_fmap. split.
  - intros (m & [= -> ->] & Hm). split; [|done].
    by rewrite elem_of_reverse, elem_of_remove_dups, elem_of_reverse in Hm.
  - intros [Hn ->]. exists n. split; [done|].
    by rewrite elem_of_reverse, elem_of_remove_dups, elem_of_reverse.
Qed.

(** The first key of greatest value is a key of the dictionary, and its
    value is the greatest value. *)
Lemma py_max_key_spec (d : list (node * nat)) (k : node) :
  py_max_key d = Ok k → ∃ c, (k, c) ∈ d ∧ py_max d.*2 = Ok c.
Proof.
  destruct d as [|x d]; simpl; [done|]. intros [= <-].
  exists (fold_left (λ m y, if (m.2 <? y.2)%nat then y else m) d x).2.
  assert (∀ x0, fold_left (λ m y, if (m.2 <? y.2)%nat then y else m) d x0 ∈ x0 :: d ∧
                (fold_left (λ m y, if (m.2 <? y.2)%nat then y else m) d x0).2
                = fold_left (λ m y, if (m <? y)%nat then y else m) d.*2 x0.2) as Hfold.
  { clear. induction d as [|y d IH]; intros x0; simpl; [split; [by left|done]|].
    destruct (IH (if (x0.2 <? y.2)%nat then y else x0)) as [Hin ->].
    split; [|by destruct (x0.2 <? y.2)%nat].
    destruct (x0.2 <? y.2)%nat.
    - by right.
    - apply elem_of_cons in Hin as [->|Hin]; [by left|by do 2 right]. }
  destruct (Hfold x) as [Hin Heq]. split; [|by rewrite Heq].
  by destruct (fold_left _ d x).
Qed.

Lemma walk_inner_nodes (G : DiGraph) (source : node) (p : path) (c : Z) (r : list Z) :
  walk G source p c r → ∀ q x, p = q ++ [x] → ∀ n, n ∈ q → n ∈ nodes G.
Proof.
  induction 1 as [|p c r u v e phys _ IH Hlast Hu _ _ _]; intros q x Heq n Hn.
  - destruct q as [|? [|? ?]]; simplify_eq/=. by apply elem_of_nil in Hn.
  - apply app_inj_tail in Heq as [<- _].
    apply last_Some in Hlast as [q' ->].
    apply elem_of_app in Hn as [Hn| ->%list_elem_of_singleton]; [|done].
    by eapply IH.
Qed.

Section GSSA_passes.

Variable set_iter : list pending → list pending.
Variable G : DiGraph.
Variables source target : node.
Variable max_res : list Z.
Variable res_min : list (gmap node (gmap node Z)).

Local Abbreviation glsa := (GLSA set_iter G source target max_res res_min).
Local Abbreviation gssa_loop := (GSSA_loop set_iter G source target max_res res_min).

(** One pass on an elementary result. *)
Lemma GSSA_pass_elementary (fuel gfuel : nat) (SS : list node) (p : path) (lab : label) :
  glsa SS gfuel = Ok (p, lab) → NoDup p →
  gssa_loop (S fuel) gfuel SS = Ok (p, lab).
Proof.
  intros H Hnd. simpl. rewrite H. simpl.
  apply GLSA_result_tracks in H as [_ (_ & Hwalk & _)].
  destruct (walk_head _ _ _ _ _ Hwalk) as (p' & Hp & _).
  rewrite py_max_ones; [done| |].
  - rewrite Hp. unfold count_elems. intros Hnil%fmap_nil_inv%fmap_nil_inv.
    apply (f_equal reverse) in Hnil. rewrite reverse_involutive in Hnil.
    assert (source ∈ remove_dups (reverse (source :: p'))) as Hin.
    { rewrite elem_of_remove_dups, elem_of_reverse. by left. }
    rewrite Hnil in Hin. by apply elem_of_nil in Hin.
  - intros c ([n c'] & -> & [Hn ->]%elem_of_count_elems)%list_elem_of_fmap. simpl.
    apply NoDup_ListNoDup in Hnd.
    pose proof (proj1 (NoDup_count_occ Nat.eq_dec p) Hnd n) as Hle.
    apply list_elem_of_In, (count_occ_In Nat.eq_dec) in Hn. lia.
Qed.

(** One pass on a result that repeats a node. *)
Lemma GSSA_pass_augments (fuel gfuel : nat) (SS : list node) (p : path) (lab : label) :
  glsa SS gfuel = Ok (p, lab) → ¬ NoDup p →
  ∃ n, (2 ≤ count_occ Nat.eq_dec p n)%nat ∧ (n ∉ SS) ∧ n ≠ source ∧ n ∈ nodes G ∧
       gssa_loop (S fuel) gfuel SS = gssa_loop fuel gfuel (SS ++ [n]).
Proof.
  intros H Hdup. simpl. rewrite H. simpl.
  apply GLSA_result_tracks in H as [Hlast Htr].
  destruct (tracks_visits _ _ _ _ _ Htr) as [Hsrc HSS].
  destruct Htr as (_ & Hwalk & _).
  destruct (walk_head _ _ _ _ _ Hwalk) as (p' & Hp & _).
  destruct (count_elems p) as [|x d] eqn:Hd.
  { exfalso. assert ((source, count_occ Nat.eq_dec p source) ∈ count_elems p) as Hin.
    { apply elem_of_count_elems. split; [|done]. rewrite Hp. by left. }
    rewrite Hd in Hin. by apply elem_of_nil in Hin. }
  destruct (py_max_key (x :: d)) as [n| |] eqn:Hkey; [|done..].
  destruct (py_max_key_spec _ _ Hkey) as (c & Hc & Hmax).
  rewrite <- Hd in Hc, Hmax. apply elem_of_count_elems in Hc as [Hn ->].
  rewrite <- Hd. rewrite Hmax. simpl.
  destruct (Nat.eqb_spec (count_occ Nat.eq_dec p n) 1) as [Hone|Hne].
  { exfalso. apply Hdup, max_mult_1_NoDup. by rewrite Hmax, Hone. }
  assert (2 ≤ count_occ Nat.eq_dec p n)%nat as Htwo.
  { apply list_elem_of_In, (count_occ_In Nat.eq_dec) in Hn. lia. }
  exists n. split_and!; [done| | | |done].
  - intros Hin%HSS. lia.
  - intros ->. lia.
  - apply last_Some in Hlast as [q Hq].
    apply (walk_inner_nodes _ _ _ _ _ Hwalk q target Hq).
    rewrite Hq, count_occ_app in Htwo. simpl in Htwo.
    apply list_elem_of_In, (count_occ_In Nat.eq_dec).
    unfold node in *. destruct (Nat.eq_dec target n); lia.
Qed.

Lemma GSSA_loop_fuel (fuel gfuel : nat) :
  ∀ SS,
    NoDup SS → (∀ n, n ∈ SS → n ∈ nodes G) →
    (length (remove_dups (nodes G)) < fuel + length SS)%nat →
    gssa_loop fuel gfuel SS = OutOfFuel →
    ∃ SS', NoDup SS' ∧ glsa SS' gfuel = OutOfFuel.
Proof.
  induction fuel as [|fuel IH]; intros SS Hnd Hsub Hlen H.
  - exfalso. assert (SS ⊆+ remove_dups (nodes G)) as Hle%submseteq_length; [|simpl in *; lia].
    apply NoDup_submseteq; [done|]. intros n Hn. by apply elem_of_remove_dups, Hsub.
  - destruct (glsa SS gfuel) as [[p lab]| |] eqn:Hg.
    + destruct (decide (NoDup p)) as [Hp|Hp].
      * by rewrite (GSSA_pass_elementary fuel gfuel SS p lab Hg Hp) in H.
      * destruct (GSSA_pass_augments fuel gfuel SS p lab Hg Hp)
          as (n & _ & Hfresh & _ & Hnode & Heq).
        rewrite Heq in H. apply IH in H; [done| | |].
        -- apply NoDup_app. split_and!; [done| |apply NoDup_singleton].
           intros m Hm ->%list_elem_of_singleton. done.
        -- intros m [Hm| ->%list_elem_of_singleton]%elem_of_app; auto.
        -- rewrite length_app. simpl. lia.
    + simpl in H. by rewrite Hg in H.
    + by exists SS.
Qed.

(** X9: when the result of a GLSA invocation is elementary, that pass of
    GSSA returns it, with the set [S] as it is; in particular GSSA returns
    the result of its first GLSA invocation when that one is elementary. *)
Theorem GSSA_returns_elementary_result :
  ∀ fuel gfuel SS p lab,
    GLSA set_iter G source target max_res res_min SS gfuel = Ok (p, lab) → NoDup p →
    GSSA_loop set_iter G source target max_res res_min (S fuel) gfuel SS = Ok (p, lab) ∧
    (SS = [] → GSSA set_iter G source target max_res res_min (S fuel) gfuel = Ok (p, lab)).
Proof.
  intros fuel gfuel SS p lab H Hnd.
  pose proof (GSSA_pass_elementary fuel gfuel SS p lab H Hnd) as Hpass.
  split; [done|]. intros ->. done.
Qed.

(** X10: when the result of a GLSA invocation repeats a node, the node
    that GSSA appends to [S] occurs at least twice in the returned path,
    is not the source, is a node of the graph and is not yet in [S]. *)
Theorem GSSA_promotes_repeated_node :
  ∀ fuel gfuel SS p lab,
    GLSA set_iter G source target max_res res_min SS gfuel = Ok (p, lab) → ¬ NoDup p →
    ∃ n, (2 ≤ count_occ Nat.eq_dec p n)%nat ∧ (n ∉ SS) ∧ n ≠ source ∧ n ∈ nodes G ∧
         GSSA_loop set_iter G source target max_res res_min (S fuel) gfuel SS
         = GSSA_loop set_iter G source target max_res res_min fuel gfuel (SS ++ [n]).
Proof. intros fuel gfuel SS p lab. apply GSSA_pass_augments. Qed.

(** X11: the loop of GSSA makes at most as many passes as the graph has
    nodes, plus one: with that many passes allowed, GSSA can only fail to
    end because a GLSA invocation does not end. *)
Theorem GSSA_passes_bounded :
  ∀ fuel gfuel,
    (length (remove_dups (nodes G)) < fuel)%nat →
    GSSA set_iter G source target max_res res_min fuel gfuel = OutOfFuel →
    ∃ SS, NoDup SS ∧ GLSA set_iter G source target max_res res_min SS gfuel = OutOfFuel.
Proof.
  intros fuel gfuel Hlen H. apply (GSSA_loop_fuel fuel gfuel []); [constructor| |simpl; lia|done].
  intros n []%elem_of_nil.
Qed.

End GSSA_passes.

(** ** The source keeps its label *)

Section Source_label.

Variable G : DiGraph.
Variables source target : node.
Variable max_res : list Z.
Variable res_min : list (gmap node (gmap node Z)).
Variable SS : list node.

(** X8: throughout an invocation the source holds exactly the label
    and the path that the initialization gives it: no label is ever added
    at the source. *)
Theorem GLSA_source_keeps_initial_label :
  ∀ st,
    GLSA_reach G source target max_res res_min SS st →
    labels st !! source = Some [(0, replicate (n_res G + length SS) 0)] ∧
    paths st !! source = Some [[source]].
Proof.
  intros st Hreach.
  induction Hreach as [|st u_label L' _ IH _|st u l [v e] st' _ IH Hext].
  - split; apply lookup_singleton_eq.
  - done.
  - apply extend_label_cases in Hext
      as [Hv [->|(parent & pp & el & r & ls & ps & L' & lu & pu & pv &
                  _ & _ & _ & _ & _ & _ & _ & _ & _ & ->)]]; [done|].
    simpl. by rewrite !lookup_insert_ne.
Qed.

End Source_label.

(** ** Further properties of the preprocessing *)

Lemma delete_unreachable_spec (G : DiGraph) (source target : node) (max_res : list Z)
    (rs : list nat) :
  ∀ r0 s,
    delete_unreachable G source target max_res rs r0 = Ok s →
    (∀ n, n ∈ s → n ∈ r0) ∧ (NoDup r0 → NoDup s) ∧ (rs ≠ [] → target ∈ s).
Proof.
  induction rs as [|res rs IH]; simpl; intros r0 s H.
  - by inv_ok; subst.
  - inv_ok. case_bool_decide as Hsrc; [done|].
    inv_ok. case_bool_decide as Htgt; [done|].
    pose proof H as Hrest. apply IH in H as (Hsub & Hnd & Htarget).
    unfold intersection in *. split_and!.
    + intros n Hn%Hsub. by apply list_elem_of_filter in Hn as [_ [_ ?]%list_elem_of_filter].
    + intros Hr0. by apply Hnd, NoDup_filter, NoDup_filter.
    + intros _. destruct rs as [|res' rs]; [|by apply Htarget].
      simpl in Hrest. by inv_ok; subst.
Qed.

(** X12: when the preprocessing returns, the nodes that survive are
    nodes of the input graph, without repetition, and, when there is at
    least one resource, [target] is one of them. *)
Theorem preprocess_survivors :
  ∀ G source target max_res H res_min,
    preprocess_ESPPRC G source target max_res = Ok (H, res_min) →
    ∃ surv,
      surviving_nodes G source target max_res = Ok surv ∧
      H = reduced_graph G surv ∧
      NoDup surv ∧ (∀ n, n ∈ surv → n ∈ nodes G) ∧
      ((0 < n_res G)%nat → target ∈ surv).
Proof.
  intros G source target max_res H res_min Hpre.
  unfold preprocess_ESPPRC in Hpre. inv_ok. simplify_eq.
  exists a. split_and!; [done..| | |].
  - unfold surviving_nodes in Ha. apply delete_unreachable_spec in Ha as (_ & Hnd & _).
    apply Hnd, NoDup_remove_dups.
  - unfold surviving_nodes in Ha. apply delete_unreachable_spec in Ha as (Hsub & _ & _).
    intros n Hn%Hsub. by rewrite elem_of_remove_dups in Hn.
  - unfold surviving_nodes in Ha. apply delete_unreachable_spec in Ha as (_ & _ & Ht).
    intros Hn. apply Ht. destruct (n_res G); [lia|done].
Qed.

Lemma get_edge_data_None (H : DiGraph) (u v : node) :
  get_edge_data H u v = None → (u, v) ∉ (adj H).*1.
Proof.
  unfold get_edge_data. destruct (find _ _) eqn:Hf; [done|]. intros _.
  intros ([[u' v'] e] & [= <- <-] & Hin)%list_elem_of_fmap.
  apply list_elem_of_In in Hin. apply (find_none _ _ Hf) in Hin.
  unfold is_edge in Hin. simpl in Hin. by rewrite !bool_decide_eq_true_2 in Hin.
Qed.

Lemma NoDup_add_node (n : node) (ns : list node) : NoDup ns → NoDup (add_node n ns).
Proof.
  unfold add_node. case_bool_decide as Hn; [done|]. intros Hns.
  apply NoDup_app. split_and!; [done| |apply NoDup_singleton].
  by intros m Hm ->%list_elem_of_singleton.
Qed.

Lemma NoDup_fst_unique {K A : Type} (l : list (K * A)) (k : K) (a b : A) :
  NoDup l.*1 → (k, a) ∈ l → (k, b) ∈ l → a = b.
Proof.
  induction l as [|[k' c] l IH]; simpl; intros Hnd Ha Hb.
  - by apply elem_of_nil in Ha.
  - apply NoDup_cons in Hnd as [Hk Hnd].
    apply elem_of_cons in Ha as [Ha|Ha]; apply elem_of_cons in Hb as [Hb|Hb].
    + congruence.
    + simplify_eq. destruct Hk. apply list_elem_of_fmap. by exists (k', b).
    + simplify_eq. destruct Hk. apply list_elem_of_fmap. by exists (k', a).
    + by apply IH.
Qed.

(** The reduced graph is a simple graph on its nodes. *)
Lemma reduced_graph_simple (G : DiGraph) (surv : list node) :
  NoDup (adj (reduced_graph G surv)).*1 ∧ NoDup (nodes (reduced_graph G surv)) ∧
  ∀ x, x ∈ adj (reduced_graph G surv) →
       x.1.1 ∈ nodes (reduced_graph G surv) ∧ x.1.2 ∈ nodes (reduced_graph G surv).
Proof.
  unfold reduced_graph.
  induction (list_prod surv surv) as [|p ps IH] using rev_ind.
  - simpl. split_and!; [constructor..|]. intros x []%elem_of_nil.
  - rewrite fold_left_app. simpl.
    generalize dependent (fold_left (copy_edge G) ps (empty_graph (n_res G))).
    intros H0 (Hadj & Hnodes & Hends). unfold copy_edge.
    destruct (has_edge G p.1 p.2 && negb (has_edge H0 p.1 p.2)) eqn:Hc; [|done].
    destruct (get_edge_data G p.1 p.2) as [[w rc]|] eqn:HG; [|done].
    apply andb_true_iff in Hc as [_ Hnew%negb_true_iff].
    unfold add_edge. simpl. rewrite Hnew. split_and!.
    + rewrite fmap_app. apply NoDup_app. split_and!; [done| |apply NoDup_singleton].
      intros k Hk ->%list_elem_of_singleton. simpl in Hk.
      apply has_edge_false, get_edge_data_None in Hnew. by destruct p.
    + by apply NoDup_add_node, NoDup_add_node.
    + intros x [Hx| ->%list_elem_of_singleton]%elem_of_app.
      * destruct (Hends x Hx). rewrite !elem_of_add_node. auto.
      * simpl. rewrite !elem_of_add_node. auto.
Qed.

Lemma NoDup_succ (H : DiGraph) (u : node) es :
  NoDup (adj H).*1 → succ H u = Ok es → NoDup es.*1.
Proof.
  unfold succ. case_bool_decide; [|done]. intros Hnd [= <-].
  induction (adj H) as [|[[u' v'] e] l IH]; simpl; [constructor|].
  apply NoDup_cons in Hnd as [Hhd Htl]. case_bool_decide as Hu; simpl in *; [|by apply IH].
  subst. apply NoDup_cons. split; [|by apply IH].
  intros ([v e'] & -> & Hin)%list_elem_of_fmap.
  apply list_elem_of_omap in Hin as ([[u2 v2] e2] & Hin & Hx). simpl in Hx.
  case_bool_decide; simplify_eq. apply Hhd.
  by apply (list_elem_of_fmap_2 fst) in Hin.
Qed.

(** X13: the reduced graph that the preprocessing returns is a simple
    graph: it has at most one edge for a pair of nodes, its nodes are
    listed once, both end points of each of its edges are among its nodes,
    and the successors of a node are listed once. *)
Theorem preprocess_reduced_graph_simple :
  ∀ G source target max_res H res_min,
    preprocess_ESPPRC G source target max_res = Ok (H, res_min) →
    NoDup (adj H).*1 ∧ NoDup (nodes H) ∧
    (∀ u v e, (u, v, e) ∈ adj H →
       u ∈ nodes H ∧ v ∈ nodes H ∧ get_edge_data G u v = Some e) ∧
    (∀ u es, succ H u = Ok es → NoDup es.*1).
Proof.
  intros G source target max_res H res_min Hpre.
  unfold preprocess_ESPPRC in Hpre. inv_ok. simplify_eq.
  destruct (reduced_graph_simple G a) as (Hadj & Hnodes & Hends).
  split_and!; [done..| |].
  - intros u v e Hin. destruct (Hends _ Hin). split_and!; [done..|].
    destruct (reduced_graph_spec G a) as [Hedges _]. apply Hedges.
    unfold get_edge_data.
    destruct (find (is_edge u v) (adj (reduced_graph G a))) as [[[u' v'] e']|] eqn:Hf.
    + apply find_some in Hf as [Hin' Hedge]. unfold is_edge in Hedge. simpl in Hedge.
      apply andb_true_iff in Hedge as [->%bool_decide_eq_true ->%bool_decide_eq_true].
      apply list_elem_of_In in Hin'. simpl. f_equal.
      by apply (NoDup_fst_unique _ _ _ _ Hadj Hin' Hin).
    + apply list_elem_of_In in Hin. apply (find_none _ _ Hf) in Hin.
      unfold is_edge in Hin. simpl in Hin. by rewrite !bool_decide_eq_true_2 in Hin.
  - intros u es. by apply NoDup_succ.
Qed.

(** ** From the input graph to the result *)

Lemma walk_mono (G H : DiGraph) (source : node) (p : path) (c : Z) (r : list Z) :
  n_res H = n_res G → (∀ n, n ∈ nodes H → n ∈ nodes G) →
  (∀ x, x ∈ adj H → x ∈ adj G) →
  walk H source p c r → walk G source p c r.
Proof.
  intros Hn Hnodes Hadj. induction 1 as [|p c r u v e phys _ IH Hlast Hu He Hv Hphys].
  - rewrite Hn. constructor.
  - eapply walk_step; eauto. unfold set_slice in *. by rewrite <- Hn.
Qed.

Lemma GSSA_loop_result set_iter (G : DiGraph) (source target : node) (max_res : list Z)
    res_min (fuel gfuel : nat) :
  ∀ SS p lab,
    GSSA_loop set_iter G source target max_res res_min fuel gfuel SS = Ok (p, lab) →
    ∃ SS', GLSA set_iter G source target max_res res_min SS' gfuel = Ok (p, lab).
Proof.
  induction fuel as [|fuel IH]; simpl; intros SS p lab H; [done|].
  inv_ok. destruct a as [p0 lab0]. inv_ok.
  destruct (a =? 1)%nat; [|inv_ok; by eapply IH].
  inv_ok. simplify_eq. by exists SS.
Qed.

(** X14: the whole pipeline is sound. On an input graph with
    non-negative resource costs and for non-negative budgets, what GSSA
    returns on the reduced graph and the table of the preprocessing is a
    path of the input graph from [source] to [target] that repeats no
    node, with a label whose cost is the sum of the weights along the
    path and whose first [n_res] entries are the sums of the resource
    costs, each within its budget. *)
Theorem ESPPRC_pipeline_sound :
  ∀ set_iter G source target max_res H res_min fuel gfuel p lab,
    edges_nonneg G → length max_res = n_res G → Forall (λ m, 0 ≤ m) max_res →
    preprocess_ESPPRC G source target max_res = Ok (H, res_min) →
    GSSA set_iter H source target max_res res_min fuel gfuel = Ok (p, lab) →
    NoDup p ∧ head p = Some source ∧ last p = Some target ∧
    walk G source p lab.1 (take (n_res G) lab.2) ∧
    within_budget G max_res lab.2.
Proof.
  intros set_iter G source target max_res H res_min fuel gfuel p lab
    HG Hlen Hpos Hpre Hgssa.
  destruct (preprocess_bound_table _ _ _ _ _ _ HG Hpre) as (Hn & _ & Hb & _ & _).
  unfold GSSA in Hgssa.
  pose proof (GSSA_loop_elementary set_iter H source target max_res res_min
                fuel gfuel [] p lab Hgssa) as Hnd.
  destruct (GSSA_loop_result set_iter H source target max_res res_min
              fuel gfuel [] p lab Hgssa) as [SS Hglsa].
  pose proof (GLSA_result_tracks set_iter H source target max_res res_min SS
                gfuel p lab Hglsa) as [Hlast (_ & Hwalk & _)].
  destruct (walk_head _ _ _ _ _ Hwalk) as (p' & Hp & _).
  apply GLSA_returns_stored in Hglsa as (st & ls & Hst & Hls & Hin).
  assert (length max_res = n_res H) as Hlen' by congruence.
  pose proof (reach_budget H source target max_res res_min SS
                Hlen' Hpos Hb st Hst target ls lab Hls Hin) as Hbud.
  unfold preprocess_ESPPRC in Hpre. inv_ok. subst H.
  destruct (reduced_graph_adj G a) as [_ Hadj].
  destruct (reduced_graph_spec G a) as [_ Hnodes].
  unfold surviving_nodes in Ha. apply delete_unreachable_spec in Ha as (Hsub & _ & _).
  split_and!; [done|by rewrite Hp|done| |].
  - rewrite <- Hn. apply (walk_mono G (reduced_graph G a)); [done| |done|done].
    intros n [Hsurv _]%Hnodes. apply Hsub in Hsurv. by rewrite elem_of_remove_dups in Hsurv.
  - intros res Hres. apply Hbud. by rewrite Hn.
Qed.

(** ** The final scan and the removal loop *)

(** X1: what GLSA returns is, in the state that its loop ends in, the
    first label of least cost among the labels of [target], with the path
    that has the index of that label. *)
Theorem GLSA_returns_first_cheapest :
  ∀ set_iter G source target max_res res_min SS fuel p lab,
    GLSA set_iter G source target max_res res_min SS fuel = Ok (p, lab) →
    ∃ st ls pl i,
      GLSA_loop set_iter G source target max_res res_min SS fuel
        (GLSA_init G source SS) = Ok st ∧
      L st = [] ∧
      labels st !! target = Some ls ∧ paths st !! target = Some pl ∧
      ls !! i = Some lab ∧ pl !! i = Some p ∧
      ∀ j a, ls !! j = Some a → lab.1 ≤ a.1 ∧ ((j < i)%nat → lab.1 < a.1).
Proof. exact GLSA_result_spec. Qed.

(** X2: the loop that removes the labels that the new label dominates
    renumbers the work-set rightly, when every entry of [v] in the
    work-set is an index of [labels[v]]: the labels that are kept are the
    ones that the new label does not dominate, the entries of the other
    nodes stay, and the entries of [v] afterwards are the entries before
    whose label is kept, each at the new index of its label. *)
Theorem remove_dominated_renumbers :
  ∀ v v_label labs pths Lc ls ps L',
    remove_dominated v v_label 0 labs pths Lc = Ok (ls, ps, L') →
    (∀ i, (v, i) ∈ Lc → (i < length labs)%nat) →
    ls = filter (λ a, _is_dominated a v_label = false) labs ∧
    (∀ w i, w ≠ v → ((w, i) ∈ L' ↔ (w, i) ∈ Lc)) ∧
    (∀ k, (v, k) ∈ L' ↔
          ∃ j a, (v, j) ∈ Lc ∧ labs !! j = Some a ∧
                 _is_dominated a v_label = false ∧
                 k = length (filter (λ a, _is_dominated a v_label = false) (take j labs)) ∧
                 ls !! k = Some a).
Proof. exact remove_dominated_renumber_spec. Qed.

(** X3: on lists of labels and of paths of one length the removal loop
    raises nothing, and it keeps each path with its label: the pairs that
    it returns are the pairs whose label the new label does not
    dominate. *)
Theorem remove_dominated_keeps_pairs :
  ∀ v v_label labs pths Lc,
    length pths = length labs →
    ∃ ls ps L',
      remove_dominated v v_label 0 labs pths Lc = Ok (ls, ps, L') ∧
      zip ls ps = filter (λ x, _is_dominated x.1 v_label = false) (zip labs pths) ∧
      length ps = length ls.
Proof. intros v v_label labs pths Lc. apply remove_dominated_parallel. Qed.

(** ** The further properties on the instances *)

(** On the cycle instance with [S] empty the target holds three labels;
    the cheapest one is the last. *)
Lemma GLSA_returns_first_cheapest_witness :
  GLSA id cycle_reduced nA nD [6] cycle_res_min [] 200
  = Ok ([nA; nB; nC; nB; nC; nB; nD], (-18, [6])) ∧
  ∃ st ls pl i,
    GLSA_loop id cycle_reduced nA nD [6] cycle_res_min [] 200
      (GLSA_init cycle_reduced nA []) = Ok st ∧
    L st = [] ∧
    labels st !! nD = Some ls ∧ paths st !! nD = Some pl ∧
    ls !! i = Some (-18, [6]) ∧ pl !! i = Some [nA; nB; nC; nB; nC; nB; nD] ∧
    ∀ j a, ls !! j = Some a → -18 ≤ a.1 ∧ ((j < i)%nat → -18 < a.1).
Proof.
  assert (GLSA id cycle_reduced nA nD [6] cycle_res_min [] 200
          = Ok ([nA; nB; nC; nB; nC; nB; nD], (-18, [6]))) as H
    by (vm_compute; reflexivity).
  split; [exact H|].
  exact (GLSA_returns_first_cheapest id cycle_reduced nA nD [6] cycle_res_min []
           200%nat [nA; nB; nC; nB; nC; nB; nD] (-18, [6]) H).
Defined.

(** Three labels at [nB], of which the new label [(0, [1])] dominates the
    first and the last; the work-set holds the first two. *)
Lemma remove_dominated_renumbers_witness :
  remove_dominated nB (0, [1]) 0 [(1, [1]); (0, [0]); (2, [2])]
    [[nA; nB]; [nA; nC; nB]; [nA; nD; nB]] [(nB, 0%nat); (nB, 1%nat); (nC, 0%nat)]
  = Ok ([(0, [0])], [[nA; nC; nB]], [(nC, 0%nat); (nB, 0%nat)]) ∧
  ∀ k, (nB, k) ∈ [(nC, 0%nat); (nB, 0%nat)] ↔
       ∃ j a, (nB, j) ∈ [(nB, 0%nat); (nB, 1%nat); (nC, 0%nat)] ∧
              [(1, [1]); (0, [0]); (2, [2])] !! j = Some a ∧
              _is_dominated a (0, [1]) = false ∧
              k = length (filter (λ a, _is_dominated a (0, [1]) = false)
                            (take j [(1, [1]); (0, [0]); (2, [2])])) ∧
              [(0, [0])] !! k = Some a.
Proof.
  assert (remove_dominated nB (0, [1]) 0 [(1, [1]); (0, [0]); (2, [2])]
            [[nA; nB]; [nA; nC; nB]; [nA; nD; nB]]
            [(nB, 0%nat); (nB, 1%nat); (nC, 0%nat)]
          = Ok ([(0, [0])], [[nA; nC; nB]], [(nC, 0%nat); (nB, 0%nat)])) as H
    by (vm_compute; reflexivity).
  split; [exact H|].
  refine (proj2 (proj2 (remove_dominated_renumbers nB (0, [1]) _ _ _ _ _ _ H _))).
  intros i Hi. unfold nB, nC in Hi.
  repeat (apply elem_of_cons in Hi as [Hi|Hi]; [simplify_eq; simpl; lia|]).
  by apply elem_of_nil in Hi.
Defined.

(** The same lists of labels and paths. *)
Lemma remove_dominated_keeps_pairs_witness :
  ∃ ls ps L',
    remove_dominated nB (0, [1]) 0 [(1, [1]); (0, [0]); (2, [2])]
      [[nA; nB]; [nA; nC; nB]; [nA; nD; nB]] [(nB, 0%nat); (nB, 1%nat); (nC, 0%nat)]
    = Ok (ls, ps, L') ∧
    zip ls ps = filter (λ x, _is_dominated x.1 (0, [1]) = false)
                  (zip [(1, [1]); (0, [0]); (2, [2])]
                       [[nA; nB]; [nA; nC; nB]; [nA; nD; nB]]) ∧
    length ps = length ls.
Proof.
  apply (remove_dominated_keeps_pairs nB (0, [1]) [(1, [1]); (0, [0]); (2, [2])]
           [[nA; nB]; [nA; nC; nB]; [nA; nD; nB]]
           [(nB, 0%nat); (nB, 1%nat); (nC, 0%nat)]).
  reflexivity.
Defined.

Lemma fork_state_reach : GLSA_reach fork_graph nA nD [10] fork_res_min [] fork_state.
Proof.
  exact (GLSA_iter_reach id fork_graph nA nD [10] fork_res_min [] _ _
           (reach_init _ _ _ _ _ _) fork_state_reached).
Defined.

(** The state of the fork instance after the first pass: the work-set
    holds the entries of [nB] and [nC], and the selection returns the
    first. *)
Lemma select_label_total_witness :
  valid_pending fork_state ∧
  ∃ u L',
    select_label id fork_graph [] fork_state = Ok u ∧
    head (id (L fork_state)) = Some u ∧
    set_remove u (L fork_state) = Ok L' ∧
    ∀ x, x ∈ L' ↔ x ∈ L fork_state ∧ x ≠ u.
Proof.
  apply (select_label_total id fork_graph nA nD [10] fork_res_min [] fork_state
           fork_state_reach).
  - done.
  - done.
  - simpl. lia.
Defined.

(** The result of GLSA on the cycle instance with [S = [nB]]. *)
Lemma GLSA_returns_walk_with_its_label_witness :
  GLSA id cycle_reduced nA nD [6] cycle_res_min [nB] 200 = Ok ([nA; nB; nD], (2, [2; 1])) ∧
  head [nA; nB; nD] = Some nA ∧ last [nA; nB; nD] = Some nD ∧
  length [2; 1] = (n_res cycle_reduced + length [nB])%nat ∧
  walk cycle_reduced nA [nA; nB; nD] 2 (take (n_res cycle_reduced) [2; 1]).
Proof.
  assert (GLSA id cycle_reduced nA nD [6] cycle_res_min [nB] 200
          = Ok ([nA; nB; nD], (2, [2; 1]))) as H by (vm_compute; reflexivity).
  split; [exact H|].
  exact (GLSA_returns_walk_with_its_label id cycle_reduced nA nD [6] cycle_res_min
           [nB] 200%nat [nA; nB; nD] (2, [2; 1]) H).
Defined.

Lemma GLSA_path_visits_S_once_witness :
  GLSA id cycle_reduced nA nD [6] cycle_res_min [nB] 200 = Ok ([nA; nB; nD], (2, [2; 1])) ∧
  count_occ Nat.eq_dec [nA; nB; nD] nA = 1%nat ∧
  ∀ n, n ∈ [nB] → (count_occ Nat.eq_dec [nA; nB; nD] n ≤ 1)%nat.
Proof.
  assert (GLSA id cycle_reduced nA nD [6] cycle_res_min [nB] 200
          = Ok ([nA; nB; nD], (2, [2; 1]))) as H by (vm_compute; reflexivity).
  split; [exact H|].
  exact (GLSA_path_visits_S_once id cycle_reduced nA nD [6] cycle_res_min
           [nB] 200%nat [nA; nB; nD] (2, [2; 1]) H).
Defined.

(** A graph of one edge without resources. *)
Lemma GLSA_without_resources_raises_witness :
  n_res unresourced_graph = 0%nat ∧
  GLSA id unresourced_graph nA nB [] [] [] 1 = Raise UnboundLocalError.
Proof.
  split; [reflexivity|].
  apply (GLSA_without_resources_raises id unresourced_graph nA nB [] [] 0%nat).
  reflexivity.
Defined.

Lemma GLSA_source_keeps_initial_label_witness :
  labels fork_state !! nA = Some [(0, replicate (n_res fork_graph + length (@nil node)) 0)] ∧
  paths fork_state !! nA = Some [[nA]].
Proof.
  exact (GLSA_source_keeps_initial_label fork_graph nA nD [10] fork_res_min []
           fork_state fork_state_reach).
Defined.

(** On the fork instance the first result of GLSA is elementary. *)
Lemma GSSA_returns_elementary_result_witness :
  GLSA id fork_graph nA nD [10] fork_res_min [] 20 = Ok ([nA; nC; nD], (2, [4])) ∧
  GSSA id fork_graph nA nD [10] fork_res_min 1 20 = Ok ([nA; nC; nD], (2, [4])).
Proof.
  assert (GLSA id fork_graph nA nD [10] fork_res_min [] 20
          = Ok ([nA; nC; nD], (2, [4]))) as H by (vm_compute; reflexivity).
  split; [exact H|].
  refine (proj2 (GSSA_returns_elementary_result id fork_graph nA nD [10] fork_res_min
                   0%nat 20%nat [] [nA; nC; nD] (2, [4]) H _) eq_refl).
  apply (bool_decide_unpack _). vm_compute. exact I.
Defined.

(** On the cycle instance the first result of GLSA goes three times through
    [nB]. *)
Lemma GSSA_promotes_repeated_node_witness :
  GLSA id cycle_reduced nA nD [6] cycle_res_min [] 200
  = Ok ([nA; nB; nC; nB; nC; nB; nD], (-18, [6])) ∧
  ∃ n, (2 ≤ count_occ Nat.eq_dec [nA; nB; nC; nB; nC; nB; nD] n)%nat ∧
       (n ∉ @nil node) ∧ n ≠ nA ∧ n ∈ nodes cycle_reduced ∧
       GSSA_loop id cycle_reduced nA nD [6] cycle_res_min 5 200 []
       = GSSA_loop id cycle_reduced nA nD [6] cycle_res_min 4 200 ([] ++ [n]).
Proof.
  assert (GLSA id cycle_reduced nA nD [6] cycle_res_min [] 200
          = Ok ([nA; nB; nC; nB; nC; nB; nD], (-18, [6]))) as H
    by (vm_compute; reflexivity).
  split; [exact H|].
  apply (GSSA_promotes_repeated_node id cycle_reduced nA nD [6] cycle_res_min
           4%nat 200%nat [] [nA; nB; nC; nB; nC; nB; nD] (-18, [6]) H).
  intros Hnd. apply (bool_decide_pack _) in Hnd. vm_compute in Hnd. exact Hnd.
Defined.

(** On the cycle instance with one pass of the loop of GLSA allowed. *)
Lemma GSSA_passes_bounded_witness :
  GSSA id cycle_reduced nA nD [6] cycle_res_min 5 1 = OutOfFuel ∧
  ∃ SS, NoDup SS ∧ GLSA id cycle_reduced nA nD [6] cycle_res_min SS 1 = OutOfFuel.
Proof.
  assert (GSSA id cycle_reduced nA nD [6] cycle_res_min 5 1 = OutOfFuel) as H
    by (vm_compute; reflexivity).
  split; [exact H|].
  apply (GSSA_passes_bounded id cycle_reduced nA nD [6] cycle_res_min 5%nat 1%nat);
    [|exact H].
  vm_compute. lia.
Defined.

(** The survivors of [chain_graph] for the budget 2. *)
Lemma preprocess_survivors_witness :
  preprocess_ESPPRC chain_graph nA nE [2] = Ok (chain_reduced, chain_res_min) ∧
  ∃ surv,
    surviving_nodes chain_graph nA nE [2] = Ok surv ∧
    chain_reduced = reduced_graph chain_graph surv ∧
    NoDup surv ∧ (∀ n, n ∈ surv → n ∈ nodes chain_graph) ∧
    ((0 < n_res chain_graph)%nat → nE ∈ surv).
Proof.
  assert (preprocess_ESPPRC chain_graph nA nE [2] = Ok (chain_reduced, chain_res_min))
    as H by (vm_compute; reflexivity).
  split; [exact H|].
  exact (preprocess_survivors chain_graph nA nE [2] chain_reduced chain_res_min H).
Defined.

Lemma preprocess_reduced_graph_simple_witness :
  preprocess_ESPPRC cycle_graph nA nD [6] = Ok (cycle_reduced, cycle_res_min) ∧
  NoDup (adj cycle_reduced).*1 ∧ NoDup (nodes cycle_reduced) ∧
  (∀ u v e, (u, v, e) ∈ adj cycle_reduced →
     u ∈ nodes cycle_reduced ∧ v ∈ nodes cycle_reduced ∧
     get_edge_data cycle_graph u v = Some e) ∧
  (∀ u es, succ cycle_reduced u = Ok es → NoDup es.*1).
Proof.
  assert (preprocess_ESPPRC cycle_graph nA nD [6] = Ok (cycle_reduced, cycle_res_min))
    as H by (vm_compute; reflexivity).
  split; [exact H|].
  exact (preprocess_reduced_graph_simple cycle_graph nA nD [6] cycle_reduced
           cycle_res_min H).
Defined.

(** The two steps on the cycle instance: the result avoids the cycle of
    negative cost. *)
Lemma ESPPRC_pipeline_sound_witness :
  preprocess_ESPPRC cycle_graph nA nD [6] = Ok (cycle_reduced, cycle_res_min) ∧
  GSSA id cycle_reduced nA nD [6] cycle_res_min 5 200 = Ok ([nA; nB; nD], (2, [2; 1])) ∧
  NoDup [nA; nB; nD] ∧ head [nA; nB; nD] = Some nA ∧ last [nA; nB; nD] = Some nD ∧
  walk cycle_graph nA [nA; nB; nD] 2 (take (n_res cycle_graph) [2; 1]) ∧
  within_budget cycle_graph [6] [2; 1].
Proof.
  assert (preprocess_ESPPRC cycle_graph nA nD [6] = Ok (cycle_reduced, cycle_res_min))
    as Hpre by (vm_compute; reflexivity).
  assert (GSSA id cycle_reduced nA nD [6] cycle_res_min 5 200
          = Ok ([nA; nB; nD], (2, [2; 1]))) as H by (vm_compute; reflexivity).
  split; [exact Hpre|]. split; [exact H|].
  refine (ESPPRC_pipeline_sound id cycle_graph nA nD [6] cycle_reduced cycle_res_min
            5%nat 200%nat [nA; nB; nD] (2, [2; 1]) _ _ _ Hpre H).
  - unfold edges_nonneg. apply (bool_decide_unpack _). vm_compute. exact I.
  - reflexivity.
  - constructor; [lia|constructor].
Defined.
